(** * Vector-tile geometry decoding and coordinate projection

    A shallow embedding of [VectorTileFeature] (the geometry command-stream
    decoder, the ring classifier and the GeoJSON serializer) and of
    [src/geo/mercator_coordinate.js] (the projection functions), with the
    properties of the specification stated over it.

    JavaScript numbers are modelled as follows.  Quantities that the decoder
    only adds, compares and multiplies (tile coordinates, deltas, command
    words, signed areas) are integers of [Z].  Quantities that go through
    division, [Math.log], [Math.tan], [Math.atan], [Math.exp] or [Math.cos]
    are real numbers of [R]: the projection formulas are read as formulas over
    the reals, rounding is not modelled. *)

From Stdlib Require Import ZArith List Bool String Lia Reals Lra.
Import ListNotations.

(* ================================================================== *)
(** * Coordinate projection ([src/geo/mercator_coordinate.js])         *)
(* ================================================================== *)

Module Mercator.

Local Open Scope R_scope.

(** Modelled from the spec: [LngLatBounds] is declared in
    [./lng_lat_bounds], which is not part of the sources at hand.  The
    specification describes it as a rectangle [{west, south, east, north}] in
    degrees, read through [getWest], [getSouth], [getEast] and [getNorth];
    [LngLatBounds.convert] returns the rectangle it is given. *)
Record LngLatBounds : Type := mkBounds
  { getWest : R; getSouth : R; getEast : R; getNorth : R }.

Definition convert (b : LngLatBounds) : LngLatBounds := b.

(** Modelled from the spec: [earthRadius] is imported from [../geo/lng_lat],
    which is not part of the sources at hand; the specification gives the
    mean Earth radius, 6,371,008.8 m. *)
Definition earthRadius : R := 63710088 / 10.

Definition earthCircumfrence : R := 2 * PI * earthRadius.

Definition circumferenceAtLatitude (latitude : R) : R :=
  earthCircumfrence * cos (latitude * PI / 180).

(** The optional parameter [bounds?] is an [option]: [if (bounds)] takes the
    first branch exactly when a rectangle is supplied. *)
Definition mercatorXfromLng (lng : R) (bounds : option LngLatBounds) : R :=
  match bounds with
  | Some bounds =>
      let b := convert bounds in
      (lng - getWest b) / (getEast b - getWest b)
  | None => (180 + lng) / 360
  end.

Definition mercatorYfromLat (lat : R) (bounds : option LngLatBounds) : R :=
  match bounds with
  | Some bounds =>
      let b := convert bounds in
      (getNorth b - lat) / (getNorth b - getSouth b)
  | None => (180 - (180 / PI * ln (tan (PI / 4 + lat * PI / 360)))) / 360
  end.

Definition mercatorZfromAltitude (altitude lat : R)
    (bounds : option LngLatBounds) : R :=
  match bounds with
  | Some bounds =>
      let b := convert bounds in
      altitude / (getNorth b - lat)
  | None => altitude / circumferenceAtLatitude lat
  end.

Definition lngFromMercatorX (x : R) (bounds : option LngLatBounds) : R :=
  match bounds with
  | Some bounds =>
      let b := convert bounds in
      x * (getEast b - getWest b) + getWest b
  | None => x * 360 - 180
  end.

Definition latFromMercatorY (y : R) (bounds : option LngLatBounds) : R :=
  match bounds with
  | Some bounds =>
      let b := convert bounds in
      let lat := getNorth b - y * (getNorth b - getSouth b) in
      lat
  | None =>
      let y2 := 180 - y * 360 in
      360 / PI * atan (exp (y2 * PI / 180)) - 90
  end.

Definition altitudeFromMercatorZ (z y : R) (bounds : option LngLatBounds) : R :=
  match bounds with
  | Some bounds =>
      let b := convert bounds in
      z * (getNorth b - y)
  | None => z * circumferenceAtLatitude (latFromMercatorY y None)
  end.

Definition mercatorScale (lat : R) : R := 1 / cos (lat * PI / 180).

(** The class [MercatorCoordinate]: a projected position. *)
Record MercatorCoordinate : Type := mkMC { mc_x : R; mc_y : R; mc_z : R }.

(** [LngLat.convert] yields the pair [(lng, lat)] it is given. *)
Definition fromLngLat (lng lat altitude : R) (bounds : option LngLatBounds)
    : MercatorCoordinate :=
  mkMC (mercatorXfromLng lng bounds)
       (mercatorYfromLat lat bounds)
       (mercatorZfromAltitude altitude lat bounds).

Definition toLngLat (c : MercatorCoordinate) (bounds : option LngLatBounds)
    : R * R :=
  (lngFromMercatorX (mc_x c) bounds, latFromMercatorY (mc_y c) bounds).

Definition toAltitude (c : MercatorCoordinate) (bounds : option LngLatBounds)
    : R :=
  altitudeFromMercatorZ (mc_z c) (mc_y c) bounds.

End Mercator.

(* ================================================================== *)
(** * Exceptions and loops                                             *)
(* ================================================================== *)

(** What a [throw] carries.  [UnknownCommand cmd] is the
    [new Error(`unknown command ${cmd}`)] of the decoders; [TypeError] is
    what the engine raises when a property of [undefined] is read or
    something that is not a function is called; [MalformedBuffer] is raised
    by the buffer reader. *)
Inductive error : Type :=
  | UnknownCommand (cmd : Z)
  | TypeError
  | MalformedBuffer.

Inductive result (A : Type) : Type :=
  | Return (a : A)
  | Throw (e : error).

Arguments Return {A} a.
Arguments Throw {A} e.

Definition bind {A B : Type} (m : result A) (k : A -> result B) : result B :=
  match m with
  | Return a => k a
  | Throw e => Throw e
  end.

Notation "x <- m ;; k" := (bind m (fun x => k))
  (at level 61, m at next level, right associativity).
Notation "' p <- m ;; k" := (bind m (fun p => k))
  (at level 61, p pattern, m at next level, right associativity).

(** A [while (cond) body] loop.  The loop of a decoder has no syntactic bound
    on its number of iterations, so the interpreter counts them down from
    [fuel]; [None] means that [fuel] iterations were not enough. *)
Section While.

Variable State : Type.
Variable cond : State -> bool.
Variable body : State -> result State.

Fixpoint while (fuel : nat) (s : State) : option (result State) :=
  if cond s then
    match fuel with
    | O => None
    | S fuel' =>
        match body s with
        | Return s' => while fuel' s'
        | Throw e => Some (Throw e)
        end
    end
  else Some (Return s).

(** The states in which the body was entered, in order. *)
Fixpoint visited (fuel : nat) (s : State) : list State :=
  if cond s then
    match fuel with
    | O => []
    | S fuel' =>
        s :: match body s with
             | Return s' => visited fuel' s'
             | Throw _ => []
             end
    end
  else [].

End While.

Arguments while {State} cond body fuel s.
Arguments visited {State} cond body fuel s.

(* ================================================================== *)
(** * The buffer reader                                                *)
(* ================================================================== *)

Module Pbf.

Local Open Scope Z_scope.

(** Modelled from the spec: the protocol-buffer reader ([pbf]) is an external
    collaborator that is not part of the sources at hand.  The specification
    describes it as a cursor [pos] over a byte buffer with a varint read and
    a signed zigzag varint read, both advancing the cursor, and a
    [MalformedBuffer] failure on a truncated varint.  A varint is at most ten
    bytes, least significant group first, seven bits a byte, the high bit
    set on every byte but the last. *)
Record Pbf : Type := mkPbf { buf : list Byte.byte; pos : Z }.

Definition byteAt (p : Pbf) : option Z :=
  if pos p <? 0 then None
  else option_map (fun b => Z.of_N (Byte.to_N b))
                  (nth_error (buf p) (Z.to_nat (pos p))).

Fixpoint readVarintFrom (n : nat) (p : Pbf) (shift val : Z)
    : result (Z * Pbf) :=
  match n with
  | O => Throw MalformedBuffer
  | S n' =>
      match byteAt p with
      | None => Throw MalformedBuffer
      | Some b =>
          let val' := Z.lor val (Z.shiftl (Z.land b 127) shift) in
          let p' := mkPbf (buf p) (pos p + 1) in
          if b <? 128 then Return (val', p')
          else readVarintFrom n' p' (shift + 7) val'
      end
  end.

Definition readVarint (p : Pbf) : result (Z * Pbf) :=
  readVarintFrom 10 p 0 0.

(** Zigzag: [num % 2 === 1 ? (num + 1) / -2 : num / 2]. *)
Definition readSVarint (p : Pbf) : result (Z * Pbf) :=
  '(num, p') <- readVarint p ;;
  Return (if num mod 2 =? 1 then (num + 1) / -2 else num / 2, p').

End Pbf.

(* ================================================================== *)
(** * [VectorTileFeature]                                              *)
(* ================================================================== *)

Module VectorTileFeature.

Import Pbf.
Local Open Scope Z_scope.

(** Modelled from the spec: [Point] comes from [@mapbox/point-geometry],
    which is not part of the sources at hand.  The specification describes
    it as a two-dimensional point value with [clone]; a clone has the
    coordinates of the point it is made from. *)
Record Point : Type := mkPoint { px : Z; py : Z }.

Definition clone (p : Point) : Point := mkPoint (px p) (py p).

(** A value of a property of a feature. *)
Inductive propvalue : Type :=
  | PString (s : string)
  | PNumber (n : Z)
  | PBool (b : bool)
  | PNull.

(** The fields of a feature once its constructor has read the record: the
    buffer behind [_pbf], the offset [_geometry] of the geometry field, and
    the public fields.  [id] is [None] when the record has no tag 1, in
    which case the object has no [id] property. *)
Record VectorTileFeature : Type := mkFeature
  { properties : list (string * propvalue);
    extent : Z;
    type : Z;
    id : option Z;
    _pbf : list Byte.byte;
    _geometry : Z }.

Definition types : list string :=
  ["Unknown"; "Point"; "LineString"; "Polygon"]%string.

(** ** The command loop *)

(** [ToInt32], applied by [&] and [>>] to their left operand. *)
Definition ToInt32 (n : Z) : Z := (n + 2 ^ 31) mod 2 ^ 32 - 2 ^ 31.

(** The locals that [loadGeometry] and [bbox] both keep: the reader, the
    current command and its remaining repeat count, and the running
    coordinates. *)
Record cursor : Type := mkCursor
  { c_pbf : Pbf; c_end : Z; c_cmd : Z; c_length : Z; c_x : Z; c_y : Z }.

(** [pbf.pos = this._geometry; let end = pbf.readVarint() + pbf.pos,
    cmd = 1, length = 0, x = 0, y = 0]. *)
Definition start (f : VectorTileFeature) : result cursor :=
  '(n, p) <- readVarint (mkPbf (_pbf f) (_geometry f)) ;;
  Return (mkCursor p (n + pos p) 1 0 0 0).

(** [pbf.pos < end] *)
Definition more (c : cursor) : bool := pos (c_pbf c) <? c_end c.

(** [if (length <= 0) { const cmdLen = pbf.readVarint(); cmd = cmdLen & 0x7;
    length = cmdLen >> 3; } length--;] *)
Definition fetch (c : cursor) : result cursor :=
  c1 <- (if c_length c <=? 0 then
           '(cmdLen, p) <- readVarint (c_pbf c) ;;
           Return (mkCursor p (c_end c)
                            (Z.land (ToInt32 cmdLen) 7)
                            (Z.shiftr (ToInt32 cmdLen) 3)
                            (c_x c) (c_y c))
         else Return c) ;;
  Return (mkCursor (c_pbf c1) (c_end c1) (c_cmd c1) (c_length c1 - 1)
                   (c_x c1) (c_y c1)).

(** [x += pbf.readSVarint(); y += pbf.readSVarint();] *)
Definition readDelta (c : cursor) : result cursor :=
  '(dx, p1) <- readSVarint (c_pbf c) ;;
  '(dy, p2) <- readSVarint p1 ;;
  Return (mkCursor p2 (c_end c) (c_cmd c) (c_length c)
                   (c_x c + dx) (c_y c + dy)).

(** ** [loadGeometry] *)

(** [lines] and [line]; [line] is [None] while the variable is
    [undefined]. *)
Record lg_state : Type := mkLg
  { lg_cur : cursor; lines : list (list Point); line : option (list Point) }.

(** The [if (cmd === 1 || cmd === 2) ... else if (cmd === 7) ... else throw]
    of [loadGeometry], with [c] the locals after the command word has been
    read. *)
Definition lg_exec (c : cursor) (s : lg_state) : result lg_state :=
  if (c_cmd c =? 1) || (c_cmd c =? 2) then
    c' <- readDelta c ;;
    let '(lines', line') :=
      if c_cmd c =? 1 then
        (* moveTo: if (line) lines.push(line); line = []; *)
        (match line s with
         | Some l => lines s ++ [l]
         | None => lines s
         end, Some [])
      else (lines s, line s) in
    (* line.push(new Point(x, y)) *)
    match line' with
    | Some l => Return (mkLg c' lines' (Some (l ++ [mkPoint (c_x c') (c_y c')])))
    | None => Throw TypeError
    end
  else if c_cmd c =? 7 then
    match line s with
    | Some l =>
        (* line.push(line[0].clone()) *)
        match l with
        | p0 :: _ => Return (mkLg c (lines s) (Some (l ++ [clone p0])))
        | [] => Throw TypeError
        end
    | None => Return (mkLg c (lines s) None)
    end
  else Throw (UnknownCommand (c_cmd c)).

(** One iteration of the loop of [loadGeometry]. *)
Definition lg_body (s : lg_state) : result lg_state :=
  c <- fetch (lg_cur s) ;; lg_exec c s.

Definition lg_more (s : lg_state) : bool := more (lg_cur s).

(** [if (line) lines.push(line); return lines;] *)
Definition lg_finish (s : lg_state) : list (list Point) :=
  match line s with
  | Some l => lines s ++ [l]
  | None => lines s
  end.

Definition lg_start (f : VectorTileFeature) : result lg_state :=
  c <- start f ;; Return (mkLg c [] None).

(** What [fuel] iterations make of an outcome of the set-up. *)
Definition run {St A : Type} (loop : St -> option (result St))
    (finish : St -> A) (init : result St) : option (result A) :=
  match init with
  | Throw e => Some (Throw e)
  | Return s =>
      match loop s with
      | None => None
      | Some (Throw e) => Some (Throw e)
      | Some (Return s') => Some (Return (finish s'))
      end
  end.

Definition loadGeometry (fuel : nat) (f : VectorTileFeature)
    : option (result (list (list Point))) :=
  run (while lg_more lg_body fuel) lg_finish (lg_start f).

(** ** [bbox] *)

(** A number that may be [Infinity] or [-Infinity]. *)
Inductive bound : Type :=
  | NegInfinity
  | Finite (z : Z)
  | Infinity.

(** [x < b] and [x > b] for a finite [x]. *)
Definition ltb_bound (x : Z) (b : bound) : bool :=
  match b with
  | NegInfinity => false
  | Finite z => x <? z
  | Infinity => true
  end.

Definition gtb_bound (x : Z) (b : bound) : bool :=
  match b with
  | NegInfinity => true
  | Finite z => x >? z
  | Infinity => false
  end.

Record bb_state : Type := mkBb
  { bb_cur : cursor; x1 : bound; x2 : bound; y1 : bound; y2 : bound }.

(** The [if (cmd === 1 || cmd === 2) ... else if (cmd !== 7) throw] of
    [bbox]. *)
Definition bb_exec (c : cursor) (s : bb_state) : result bb_state :=
  if (c_cmd c =? 1) || (c_cmd c =? 2) then
    c' <- readDelta c ;;
    Return (mkBb c'
              (if ltb_bound (c_x c') (x1 s) then Finite (c_x c') else x1 s)
              (if gtb_bound (c_x c') (x2 s) then Finite (c_x c') else x2 s)
              (if ltb_bound (c_y c') (y1 s) then Finite (c_y c') else y1 s)
              (if gtb_bound (c_y c') (y2 s) then Finite (c_y c') else y2 s))
  else if negb (c_cmd c =? 7) then Throw (UnknownCommand (c_cmd c))
  else Return (mkBb c (x1 s) (x2 s) (y1 s) (y2 s)).

(** One iteration of the loop of [bbox]. *)
Definition bb_body (s : bb_state) : result bb_state :=
  c <- fetch (bb_cur s) ;; bb_exec c s.

Definition bb_more (s : bb_state) : bool := more (bb_cur s).

(** [return [x1, y1, x2, y2];] *)
Definition bb_finish (s : bb_state) : list bound :=
  [x1 s; y1 s; x2 s; y2 s].

Definition bb_start (f : VectorTileFeature) : result bb_state :=
  c <- start f ;; Return (mkBb c Infinity NegInfinity Infinity NegInfinity).

Definition bbox (fuel : nat) (f : VectorTileFeature)
    : option (result (list bound)) :=
  run (while bb_more bb_body fuel) bb_finish (bb_start f).

(** ** [signedArea] and [classifyRings] *)

Definition origin : Point := mkPoint 0 0.

(** The [for] loop of [signedArea]: [n] iterations are left, [i] and [j] are
    the two indices, [j = i++] after each iteration. *)
Fixpoint signedAreaLoop (ring : list Point) (n i j : nat) (sum : Z) : Z :=
  match n with
  | O => sum
  | S n' =>
      let p1 := nth i ring origin in
      let p2 := nth j ring origin in
      signedAreaLoop ring n' (S i) i
                     (sum + (px p2 - px p1) * (py p1 + py p2))
  end.

Definition signedArea (ring : list Point) : Z :=
  let len := List.length ring in
  signedAreaLoop ring len 0 (len - 1) 0.

(** [polygons], [polygon] and [ccw]; the last two are [None] while they are
    [undefined]. *)
Record cr_state : Type := mkCr
  { polygons : list (list (list Point));
    polygon : option (list (list Point));
    ccw : option bool }.

(** One iteration of the loop of [classifyRings], on [rings[i]]. *)
Definition cr_body (s : cr_state) (ring : list Point) : result cr_state :=
  let area := signedArea ring in
  if area =? 0 then Return s
  else
    let ccw' := match ccw s with
                | None => area <? 0
                | Some b => b
                end in
    if Bool.eqb ccw' (area <? 0) then
      Return (mkCr (match polygon s with
                    | Some p => polygons s ++ [p]
                    | None => polygons s
                    end)
                   (Some [ring]) (Some ccw'))
    else
      (* polygon.push(rings[i]) *)
      match polygon s with
      | Some p => Return (mkCr (polygons s) (Some (p ++ [ring])) (Some ccw'))
      | None => Throw TypeError
      end.

Fixpoint cr_loop (rings : list (list Point)) (s : cr_state)
    : result cr_state :=
  match rings with
  | [] => Return s
  | ring :: rest => s' <- cr_body s ring ;; cr_loop rest s'
  end.

Definition cr_finish (s : cr_state) : list (list (list Point)) :=
  match polygon s with
  | Some p => polygons s ++ [p]
  | None => polygons s
  end.

Definition classifyRings (rings : list (list Point))
    : result (list (list (list Point))) :=
  if (List.length rings <=? 1)%nat then Return [rings]
  else s <- cr_loop rings (mkCr [] None None) ;; Return (cr_finish s).

(** ** [toGeoJSON] *)

Import Mercator.

(** What a slot of [coords] can hold: [undefined], a decoded [Point], the
    two-element array of numbers that a projection writes, or an array. *)
#[warnings="-register-all"]
Inductive jsvalue : Type :=
  | Undefined
  | PointObject (p : Point)
  | Pair (a b : R)
  | Array (l : list jsvalue).

Fixpoint mapM {A B : Type} (f : A -> result B) (l : list A)
    : result (list B) :=
  match l with
  | [] => Return []
  | a :: rest => b <- f a ;; bs <- mapM f rest ;; Return (b :: bs)
  end.

(** What the two parameters of [gaussProject] can be bound to. *)
Inductive argument : Type :=
  | ArgBounds (b : LngLatBounds)
  | ArgLine (l : list (option Point)).

(** The slots that [for (let j = 0; j < line.length; j++)] visits.  A
    [LngLatBounds] object has no [length]: [0 < undefined] is false and the
    body never runs. *)
Definition slots (line : argument) : list (option Point) :=
  match line with
  | ArgBounds _ => []
  | ArgLine l => l
  end.

Section Projections.

(** [size], [x0] and [y0] of the enclosing [toGeoJSON]. *)
Variables size x0 y0 : R.

Local Open Scope R_scope.

(** [mercatorProject(line)]: the new content of [line]. *)
Definition mercatorProject (line : list (option Point))
    : result (list jsvalue) :=
  mapM (fun p : option Point =>
          match p with
          | None => Throw TypeError
          | Some p =>
              let y2 := 180 - ((IZR (py p) + y0) * 360) / size in
              Return (Pair (((IZR (px p) + x0) * 360) / size - 180)
                           ((360 / PI) * atan (exp ((y2 * PI) / 180)) - 90))
          end) line.

(** [gaussProject(line, bounds)]: the values written to the slots of
    [line]. *)
Definition gaussProject (line bounds : argument) : result (list jsvalue) :=
  mapM (fun p : option Point =>
          match bounds with
          | ArgLine _ => Throw TypeError
          | ArgBounds b =>
              let width := getEast b - getWest b in
              let height := getNorth b - getSouth b in
              match p with
              | None => Throw TypeError
              | Some p =>
                  Return (Pair (((IZR (px p) + x0) / size) * width + getWest b)
                               (getNorth b - ((IZR (py p) + y0) / size) * height))
              end
          end) (slots line).

Definition unprojected (p : option Point) : jsvalue :=
  match p with
  | None => Undefined
  | Some p => PointObject p
  end.

(** [const project = bounds ? gaussProject.bind(null, bounds) :
    mercatorProject;] applied to an array: the content of the array after
    the call.  [bind(null, bounds)] fixes [this] to [null] and the FIRST
    parameter to [bounds], so that [project(line)] is
    [gaussProject(bounds, line)]: the array arrives as the second parameter,
    which [gaussProject] only reads. *)
Definition project (bounds : option LngLatBounds) (line : list (option Point))
    : result (list jsvalue) :=
  match bounds with
  | Some b =>
      _ <- gaussProject (ArgBounds b) (ArgLine line) ;;
      Return (map unprojected line)
  | None => mercatorProject line
  end.

(** The [switch (this.type)]: the content of [coords] after it. *)
Definition projectCoords (type : Z) (bounds : option LngLatBounds)
    (coords : list (list Point)) : result (list jsvalue) :=
  if (type =? 1)%Z then
    (* points[i] = coords[i][0] *)
    project bounds (map (@hd_error Point) coords)
  else if (type =? 2)%Z then
    ls <- mapM (fun l => project bounds (map Some l)) coords ;;
    Return (map Array ls)
  else if (type =? 3)%Z then
    polys <- classifyRings coords ;;
    ps <- mapM (fun poly =>
                  rs <- mapM (fun l => project bounds (map Some l)) poly ;;
                  Return (Array (map Array rs))) polys ;;
    Return ps
  else Return (map (fun l => Array (map PointObject l)) coords).

End Projections.

Record geometry : Type := mkGeometry
  { geometry_type : option string; coordinates : jsvalue }.

(** The result of [toGeoJSON]; its [type] is always ["Feature"]. *)
Record GeoJSON : Type := mkGeoJSON
  { feature_geometry : geometry;
    feature_properties : list (string * propvalue);
    feature_id : option Z }.

(** [VectorTileFeature.types[this.type]], [None] for [undefined]. *)
Definition typeName (t : Z) : option string :=
  if t <? 0 then None else nth_error types (Z.to_nat t).

(** [`Multi${type}`] *)
Definition multi (t : option string) : string :=
  ("Multi" ++ match t with
              | Some s => s
              | None => "undefined"
              end)%string.

(** [if (coords.length === 1) coords = coords[0]; else type = `Multi${type}`] *)
Definition assemble (t : option string) (coords : list jsvalue) : geometry :=
  match coords with
  | [c] => mkGeometry t c
  | _ => mkGeometry (Some (multi t)) (Array coords)
  end.

Definition toGeoJSON (fuel : nat) (f : VectorTileFeature) (x y z : R)
    (bounds : option LngLatBounds) : option (result GeoJSON) :=
  let size := (IZR (extent f) * Rpower 2 z)%R in
  let x0 := (IZR (extent f) * x)%R in
  let y0 := (IZR (extent f) * y)%R in
  match loadGeometry fuel f with
  | None => None
  | Some loaded =>
      Some (coords <- loaded ;;
            coords' <- projectCoords size x0 y0 (type f) bounds coords ;;
            Return (mkGeoJSON (assemble (typeName (type f)) coords')
                              (properties f) (id f)))
  end.

(** ** Observations of a run of a decoder *)

(** The command that the iteration entered with the locals [c] executes:
    the one just read if the repeat count was used up, the current one
    otherwise; [None] if the command word cannot be read. *)
Definition command_at (c : cursor) : option Z :=
  match fetch c with
  | Return c' => Some (c_cmd c')
  | Throw _ => None
  end.

(** The signed delta that this iteration reads: that of its [MoveTo] or
    [LineTo], and [(0, 0)] if it executes another command or fails to read
    one. *)
Definition delta_at (c : cursor) : Z * Z :=
  match fetch c with
  | Return c' =>
      if (c_cmd c' =? 1) || (c_cmd c' =? 2) then
        match readSVarint (c_pbf c') with
        | Return (dx, p1) =>
            match readSVarint p1 with
            | Return (dy, _) => (dx, dy)
            | Throw _ => (0, 0)
            end
        | Throw _ => (0, 0)
        end
      else (0, 0)
  | Throw _ => (0, 0)
  end.

Definition sumZ (l : list Z) : Z := fold_right Z.add 0 l.

(** The states in which [loadGeometry], respectively [bbox], enters its
    loop body on the feature [f], when given [fuel] iterations. *)
Definition lg_visited (fuel : nat) (f : VectorTileFeature) : list lg_state :=
  match lg_start f with
  | Return s0 => visited lg_more lg_body fuel s0
  | Throw _ => []
  end.

Definition bb_visited (fuel : nat) (f : VectorTileFeature) : list bb_state :=
  match bb_start f with
  | Return s0 => visited bb_more bb_body fuel s0
  | Throw _ => []
  end.

(** The locals with which the loop is left. *)
Definition lg_final (fuel : nat) (f : VectorTileFeature)
    : option (result lg_state) :=
  run (while lg_more lg_body fuel) (fun s => s) (lg_start f).

Definition bb_final (fuel : nat) (f : VectorTileFeature)
    : option (result bb_state) :=
  run (while bb_more bb_body fuel) (fun s => s) (bb_start f).

(** The commands that [loadGeometry] executes, in order. *)
Definition lg_commands (fuel : nat) (f : VectorTileFeature)
    : list (option Z) :=
  map (fun s => command_at (lg_cur s)) (lg_visited fuel f).

(** The two components of the termination measure: the bytes left before
    [end], and the repeats left of the current command. *)
Definition bytes_left (c : cursor) : nat := Z.to_nat (c_end c - pos (c_pbf c)).
Definition repeats_left (c : cursor) : nat := Z.to_nat (c_length c).

Definition lowers (c c' : cursor) : Prop :=
  (bytes_left c' < bytes_left c)%nat \/
  (bytes_left c' = bytes_left c /\ (repeats_left c' < repeats_left c)%nat).

(** While the reference winding is set, a polygon is open. *)
Definition cr_inv (s : cr_state) : Prop := polygon s = None -> ccw s = None.

(** The term that [signedArea] adds for the index pair [(i, j)]. *)
Definition shoelace_term (ring : list Point) (i j : nat) : Z :=
  (px (nth j ring origin) - px (nth i ring origin)) *
  (py (nth i ring origin) + py (nth j ring origin)).

Definition option_eq_dec_Z (a b : option Z) : {a = b} + {a <> b}.
Proof. decide equality. apply Z.eq_dec. Defined.

(** The hole branch of [classifyRings] is taken on [ring] in the state [s]:
    the ring is not degenerate and its winding differs from the reference. *)
Definition takes_hole_branch (s : cr_state) (ring : list Point) : Prop :=
  signedArea ring <> 0 /\
  Bool.eqb (match ccw s with
            | None => signedArea ring <? 0
            | Some b => b
            end) (signedArea ring <? 0) = false.

End VectorTileFeature.

(* ================================================================== *)
(** * Features used as examples                                        *)
(* ================================================================== *)

Module Examples.

Import Byte Pbf VectorTileFeature Mercator.
Local Open Scope Z_scope.

(** Geometry field: length 9, then [MoveTo] x1 (word 9) with delta (0,0),
    [LineTo] x2 (word 18) with deltas (2,0) and (0,2) (zigzag 4 0 0 4),
    [ClosePath] x1 (word 15). *)
Definition triangle : VectorTileFeature :=
  mkFeature [] 4096 3 None
    [x09; x09; x00; x00; x12; x04; x00; x00; x04; x0f] 0.

(** [MoveTo] x1 with delta (1,1), then the command word 11: code 3, count 1. *)
Definition bad_command : VectorTileFeature :=
  mkFeature [] 4096 2 None [x04; x09; x02; x02; x0b] 0.

(** [LineTo] x1 (word 10) with delta (1,1) and nothing before it. *)
Definition line_first : VectorTileFeature :=
  mkFeature [] 4096 2 None [x03; x0a; x02; x02] 0.

(** [ClosePath] x1, then [MoveTo] x1 with delta (1,1), [LineTo] x1 with
    delta (1,0). *)
Definition close_first : VectorTileFeature :=
  mkFeature [] 4096 2 None [x07; x0f; x09; x02; x02; x0a; x02; x00] 0.

(** A point feature with the single point (1,1). *)
Definition one_point : VectorTileFeature :=
  mkFeature [] 4096 1 None [x03; x09; x02; x02] 0.

(** Two rings: [MoveTo](0,0) [LineTo](2,0),(2,2), then [MoveTo](5,5)
    [LineTo](7,5),(7,7): the second [MoveTo] has delta (3,3). *)
Definition two_rings : VectorTileFeature :=
  mkFeature [] 4096 3 None
    [x10; x09; x00; x00; x12; x04; x00; x00; x04;
          x09; x06; x06; x12; x04; x00; x00; x04] 0.

Definition square : list Point :=
  [mkPoint 0 0; mkPoint 2 0; mkPoint 2 2; mkPoint 0 2; mkPoint 0 0].

Definition square_reversed : list Point :=
  [mkPoint 0 0; mkPoint 0 2; mkPoint 2 2; mkPoint 2 0; mkPoint 0 0].

Definition unit_box : LngLatBounds := mkBounds 0 0 2 2.

(** States and locals of the decoders on the features above. *)

Definition first_ring : list Point := [mkPoint 0 0; mkPoint 2 0; mkPoint 2 2].

Definition second_ring : list Point := [mkPoint 5 5; mkPoint 7 5; mkPoint 7 7].

(** [two_rings], entering the iteration of the second [MoveTo]. *)
Definition before_second_moveTo : lg_state :=
  mkLg (mkCursor (mkPbf (_pbf two_rings) 9) 17 2 0 2 2) [] (Some first_ring).

(** Its locals once the command word is read, and once the delta is. *)
Definition second_moveTo_word : cursor :=
  mkCursor (mkPbf (_pbf two_rings) 10) 17 1 0 2 2.

Definition second_moveTo_read : cursor :=
  mkCursor (mkPbf (_pbf two_rings) 12) 17 1 0 5 5.

Definition after_second_moveTo : lg_state :=
  mkLg second_moveTo_read [first_ring] (Some [mkPoint 5 5]).

Definition bbox_after_second_moveTo : bb_state :=
  mkBb second_moveTo_read (Finite 0) (Finite 5) (Finite 0) (Finite 5).

(** The [LineTo] that follows. *)
Definition next_lineTo_word : cursor :=
  mkCursor (mkPbf (_pbf two_rings) 13) 17 2 1 5 5.

Definition next_lineTo_read : cursor :=
  mkCursor (mkPbf (_pbf two_rings) 15) 17 2 1 7 5.

(** [bad_command], entering the iteration of the command 3. *)
Definition bad_command_cursor : cursor :=
  mkCursor (mkPbf (_pbf bad_command) 4) 5 1 0 1 1.

Definition before_bad_command : lg_state :=
  mkLg bad_command_cursor [] (Some [mkPoint 1 1]).

Definition bbox_before_bad_command : bb_state :=
  mkBb bad_command_cursor (Finite 1) (Finite 1) (Finite 1) (Finite 1).

(** [line_first], entering its only iteration. *)
Definition line_first_start : lg_state :=
  mkLg (mkCursor (mkPbf (_pbf line_first) 1) 4 1 0 0 0) [] None.

Definition line_first_word : cursor :=
  mkCursor (mkPbf (_pbf line_first) 2) 4 2 0 0 0.

Definition line_first_read : cursor :=
  mkCursor (mkPbf (_pbf line_first) 4) 4 2 0 1 1.

(** [close_first], entering its first iteration. *)
Definition close_first_start : lg_state :=
  mkLg (mkCursor (mkPbf (_pbf close_first) 1) 8 1 0 0 0) [] None.

Definition close_first_word : cursor :=
  mkCursor (mkPbf (_pbf close_first) 2) 8 7 0 0 0.

(** The classifier after [square]. *)
Definition after_square : cr_state := mkCr [] (Some [square]) (Some false).

End Examples.

(* ================================================================== *)
(** * More of [MercatorCoordinate], and derived quantities             *)
(* ================================================================== *)

Module Derived.

Import Pbf VectorTileFeature Mercator.

(** [MercatorCoordinate.meterInMercatorCoordinateUnits(bounds)]:
    [1 / earthCircumfrence * mercatorScale(latFromMercatorY(this.y, bounds))] *)
Definition meterInMercatorCoordinateUnits (c : MercatorCoordinate)
    (bounds : option LngLatBounds) : R :=
  (1 / earthCircumfrence *
   mercatorScale (latFromMercatorY (mc_y c) bounds))%R.

Local Open Scope Z_scope.

(** The least and the greatest of a list of numbers, [Infinity] and
    [-Infinity] for the empty list. *)
Definition least (zs : list Z) : bound :=
  match zs with
  | [] => Infinity
  | z :: zs => Finite (fold_left Z.min zs z)
  end.

Definition greatest (zs : list Z) : bound :=
  match zs with
  | [] => NegInfinity
  | z :: zs => Finite (fold_left Z.max zs z)
  end.

(** The bounding box of a list of points, as [[minX, minY, maxX, maxY]]. *)
Definition box (pts : list Point) : list bound :=
  [least (map px pts); least (map py pts);
   greatest (map px pts); greatest (map py pts)].

(** The points that [loadGeometry] has stored so far, in the order in which
    they were stored: those of the finished rings, then those of the open
    one. *)
Definition lg_points (s : lg_state) : list Point :=
  List.concat (lines s) ++ match line s with
                      | Some l => l
                      | None => []
                      end.

(** The rings begun so far. *)
Definition rings_so_far (s : lg_state) : nat :=
  (List.length (lines s) + match line s with
                           | Some _ => 1
                           | None => 0
                           end)%nat.

(** 1 if the iteration entered in [s] executes a [MoveTo], 0 otherwise. *)
Definition is_moveTo (s : lg_state) : nat :=
  if option_eq_dec_Z (command_at (lg_cur s)) (Some 1) then 1%nat else 0%nat.

(** No ring is empty, finished or open. *)
Definition rings_nonempty (s : lg_state) : Prop :=
  Forall (fun l : list Point => l <> []) (lines s) /\
  (forall l, line s = Some l -> l <> []).

(** The two decoders in step: the same locals, and the extrema of [bbox] are
    those of the points that [loadGeometry] has stored. *)
Definition in_step (s : lg_state) (t : bb_state) : Prop :=
  lg_cur s = bb_cur t /\ rings_nonempty s /\
  [x1 t; y1 t; x2 t; y2 t] = box (lg_points s).

(** A state of the classifier with every ring reversed and the reference
    winding inverted. *)
Definition reversed (s : cr_state) : cr_state :=
  mkCr (map (map (@rev Point)) (polygons s))
       (option_map (map (@rev Point)) (polygon s))
       (option_map negb (ccw s)).

(** The sum of [shoelace_term] over the consecutive pairs of an open path,
    and over those of the path closed by the pair of its ends. *)
Definition edge (p1 p2 : Point) : Z := (px p2 - px p1) * (py p1 + py p2).

Fixpoint path (prev : Point) (l : list Point) : Z :=
  match l with
  | [] => 0
  | p :: rest => edge p prev + path p rest
  end.

(** The ring shifted by [(dx, dy)]. *)
Definition shift (dx dy : Z) (ring : list Point) : list Point :=
  map (fun p => mkPoint (px p + dx) (py p + dy)) ring.

(** The pair that the default projection of [mercator_coordinate.js] gives
    for a point of the tile [(x, y, z)]. *)
Definition lngLatOf (extent : Z) (x y z : R) (p : Point) : jsvalue :=
  Pair (lngFromMercatorX
          ((x * IZR extent + IZR (px p)) / (IZR extent * Rpower 2 z))%R None)
       (latFromMercatorY
          ((y * IZR extent + IZR (py p)) / (IZR extent * Rpower 2 z))%R None).

(** A polygon of the classifier with respect to the reference winding
    [ref]: a first ring of non-zero signed area wound as [ref], followed by
    rings of non-zero signed area wound the other way. *)
Definition grouped (ref : bool) (poly : list (list Point)) : Prop :=
  exists ext holes,
    poly = ext :: holes /\
    signedArea ext <> 0%Z /\ (signedArea ext <? 0)%Z = ref /\
    Forall (fun h => signedArea h <> 0%Z /\ (signedArea h <? 0)%Z = negb ref)
           holes.

(** What the classifier has seen so far is either nothing but degenerate
    rings, or polygons grouped with respect to the reference winding. *)
Definition cr_grouped (s : cr_state) : Prop :=
  (ccw s = None /\ polygon s = None /\ polygons s = []) \/
  (exists ref p,
     ccw s = Some ref /\ polygon s = Some p /\ grouped ref p /\
     Forall (grouped ref) (polygons s)).

(** A polygon feature of two rings of one point each, (1,1) and (2,2):
    [MoveTo] x2 (word 17) with the deltas (1,1) and (1,1). *)
Definition two_dots : VectorTileFeature :=
  mkFeature [] 4096 3 None
    [Byte.x05; Byte.x11; Byte.x02; Byte.x02; Byte.x02; Byte.x02] 0.

(** A line feature of two lines: [MoveTo](0,0) [LineTo](2,0), then
    [MoveTo](3,3) [LineTo](3,5). *)
Definition two_lines : VectorTileFeature :=
  mkFeature [] 4096 2 None
    [Byte.x0c; Byte.x09; Byte.x00; Byte.x00; Byte.x0a; Byte.x04; Byte.x00;
               Byte.x09; Byte.x02; Byte.x06; Byte.x0a; Byte.x00; Byte.x04] 0.

End Derived.

(* ================================================================== *)
(** * Facts about loops                                                *)
(* ================================================================== *)

Section WhileFacts.

Variable State : Type.
Variable cond : State -> bool.
Variable body : State -> result State.

Lemma while_more_fuel (n m : nat) (s : State) (r : result State) :
  while cond body n s = Some r -> (n <= m)%nat -> while cond body m s = Some r.
Proof.
  revert m s. induction n as [|n IH]; intros m s Hw Hle.
  - simpl in Hw. destruct m; simpl; destruct (cond s); congruence.
  - destruct m as [|m]; [lia|]. simpl in *.
    destruct (cond s); [|exact Hw].
    destruct (body s) as [s'|e]; [|exact Hw].
    apply IH; [exact Hw | lia].
Qed.

Lemma while_deterministic (n m : nat) (s : State) (r r' : result State) :
  while cond body n s = Some r -> while cond body m s = Some r' -> r = r'.
Proof.
  intros Hn Hm.
  apply while_more_fuel with (m := Nat.max n m) in Hn; [|lia].
  apply while_more_fuel with (m := Nat.max n m) in Hm; [|lia].
  congruence.
Qed.

Lemma visited_more_fuel (n m : nat) (s : State) (r : result State) :
  while cond body n s = Some r -> (n <= m)%nat -> visited cond body m s = visited cond body n s.
Proof.
  revert m s. induction n as [|n IH]; intros m s Hw Hle.
  - simpl in *. destruct m; simpl; destruct (cond s); congruence.
  - destruct m as [|m]; [lia|]. simpl in *.
    destruct (cond s); [|reflexivity].
    destruct (body s) as [s'|e]; [|reflexivity].
    f_equal. apply IH; [exact Hw | lia].
Qed.

(** A state the loop enters with the body throwing there decides the
    outcome of the whole loop. *)
Lemma while_throws_at (n : nat) (s0 s : State) (e : error) :
  In s (visited cond body n s0) -> body s = Throw e ->
  while cond body n s0 = Some (Throw e).
Proof.
  revert s0. induction n as [|n IH]; intros s0 Hin Hb; simpl in *.
  - destruct (cond s0); contradiction.
  - destruct (cond s0); [|contradiction].
    destruct Hin as [->|Hin].
    + rewrite Hb. reflexivity.
    + destruct (body s0) as [s'|e']; [|contradiction].
      apply IH; assumption.
Qed.

(** An invariant of the body holds where the loop exits. *)
Lemma while_invariant (I : State -> Prop) :
  (forall s s', I s -> cond s = true -> body s = Return s' -> I s') ->
  forall n s s', I s -> while cond body n s = Some (Return s') -> I s'.
Proof.
  intros Hstep. induction n as [|n IH]; intros s s' Hi Hw; simpl in Hw.
  - destruct (cond s); [discriminate|]. congruence.
  - destruct (cond s) eqn:Hc; [|congruence].
    destruct (body s) as [s1|e] eqn:Hb; [|discriminate].
    eapply IH; [|exact Hw]. eapply Hstep; eassumption.
Qed.

(** Termination from a lexicographic measure: every iteration either
    lowers [m1], or keeps it and lowers [m2]. *)
Lemma while_terminates (m1 m2 : State -> nat) :
  (forall s s', cond s = true -> body s = Return s' ->
     (m1 s' < m1 s)%nat \/ (m1 s' = m1 s /\ (m2 s' < m2 s)%nat)) ->
  forall s, exists n r, while cond body n s = Some r.
Proof.
  intros Hdec.
  assert (H : forall a b s, m1 s = a -> m2 s = b ->
              exists n r, while cond body n s = Some r).
  { induction a as [a IHa] using lt_wf_ind.
    induction b as [b IHb] using lt_wf_ind.
    intros s Ha Hb.
    destruct (cond s) eqn:Hc.
    - destruct (body s) as [s'|e] eqn:Hbody.
      + destruct (Hdec s s' Hc Hbody) as [Hlt|[Heq Hlt]].
        * destruct (IHa (m1 s') ltac:(lia) (m2 s') s' eq_refl eq_refl)
            as (n & r & Hn).
          exists (S n), r. simpl. rewrite Hc, Hbody. exact Hn.
        * destruct (IHb (m2 s') ltac:(lia) s' ltac:(lia) eq_refl)
            as (n & r & Hn).
          exists (S n), r. simpl. rewrite Hc, Hbody. exact Hn.
      + exists 1%nat, (Throw e). simpl. rewrite Hc, Hbody. reflexivity.
    - exists 0%nat, (Return s). simpl. rewrite Hc. reflexivity. }
  intros s. eapply H; reflexivity.
Qed.

(** In a run that returns, the body returns in every state it is entered
    in. *)
Lemma while_returns_body_returns (n : nat) (s0 s sf : State) :
  while cond body n s0 = Some (Return sf) -> In s (visited cond body n s0) ->
  exists s', body s = Return s'.
Proof.
  intros Hw Hin. destruct (body s) as [s'|e] eqn:Hb.
  - exists s'. reflexivity.
  - rewrite (while_throws_at n s0 s e Hin Hb) in Hw. discriminate.
Qed.

End WhileFacts.

(* ================================================================== *)
(** * Facts about the projection                                       *)
(* ================================================================== *)

Section MercatorFacts.

Import Mercator.
Local Open Scope R_scope.

(** ** Round trips of the default projection *)

Lemma quarter_turn_range (lat : R) :
  -90 < lat < 90 -> 0 < PI / 4 + lat * PI / 360 < PI / 2.
Proof.
  intros [Hlo Hhi]. pose proof PI_RGT_0 as Hpi.
  split; nra.
Qed.

Lemma lat_roundtrip_default (lat : R) :
  -90 < lat < 90 ->
  latFromMercatorY (mercatorYfromLat lat None) None = lat.
Proof.
  intros Hlat.
  destruct (quarter_turn_range lat Hlat) as [Hlo Hhi].
  pose proof PI_RGT_0 as Hpi.
  unfold latFromMercatorY, mercatorYfromLat.
  set (u := PI / 4 + lat * PI / 360) in *.
  replace ((180 - (180 - 180 / PI * ln (tan u)) / 360 * 360) * PI / 180)
    with (ln (tan u)) by (field; lra).
  rewrite exp_ln by (apply tan_gt_0; assumption).
  rewrite atan_tan by (split; lra).
  unfold u. field. lra.
Qed.

Lemma lng_roundtrip_default (lng : R) :
  lngFromMercatorX (mercatorXfromLng lng None) None = lng.
Proof. unfold lngFromMercatorX, mercatorXfromLng. field. Qed.

(** ** Round trips of the bounds-relative projection *)

Lemma lng_roundtrip_bounds (b : LngLatBounds) (lng : R) :
  getWest b <> getEast b ->
  lngFromMercatorX (mercatorXfromLng lng (Some b)) (Some b) = lng.
Proof.
  intros Hne. unfold lngFromMercatorX, mercatorXfromLng, convert.
  field. lra.
Qed.

Lemma lat_roundtrip_bounds (b : LngLatBounds) (lat : R) :
  getSouth b <> getNorth b ->
  latFromMercatorY (mercatorYfromLat lat (Some b)) (Some b) = lat.
Proof.
  intros Hne. unfold latFromMercatorY, mercatorYfromLat, convert.
  field. lra.
Qed.

(** ** Altitude in the default projection *)

Lemma circumference_nonzero (lat : R) :
  -90 < lat < 90 -> circumferenceAtLatitude lat <> 0.
Proof.
  intros [Hlo Hhi]. pose proof PI_RGT_0 as Hpi.
  unfold circumferenceAtLatitude, earthCircumfrence, earthRadius.
  assert (Hc : 0 < cos (lat * PI / 180)) by (apply cos_gt_0; nra).
  apply Rgt_not_eq. apply Rmult_lt_0_compat; [nra | exact Hc].
Qed.

Lemma altitude_roundtrip_default (altitude lat : R) :
  -90 < lat < 90 ->
  altitudeFromMercatorZ (mercatorZfromAltitude altitude lat None)
                        (mercatorYfromLat lat None) None = altitude.
Proof.
  intros Hlat. unfold altitudeFromMercatorZ, mercatorZfromAltitude.
  rewrite lat_roundtrip_default by exact Hlat.
  field. apply circumference_nonzero; exact Hlat.
Qed.

End MercatorFacts.

(* ================================================================== *)
(** * Facts about the reader and the command loop                      *)
(* ================================================================== *)

Section DecoderFacts.

Import Pbf VectorTileFeature.
Local Open Scope Z_scope.

Lemma readVarintFrom_advances (n : nat) :
  forall p shift val v p',
    readVarintFrom n p shift val = Return (v, p') ->
    pos p < pos p' /\ buf p' = buf p.
Proof.
  induction n as [|n IH]; intros p shift val v p' H; simpl in H.
  - discriminate.
  - destruct (byteAt p) as [b|]; [|discriminate].
    destruct (b <? 128).
    + inversion H; subst; simpl. split; [lia | reflexivity].
    + apply IH in H. simpl in H. destruct H as [Hlt Hbuf].
      split; [lia | exact Hbuf].
Qed.

Lemma readVarint_advances (p p' : Pbf) (v : Z) :
  readVarint p = Return (v, p') -> pos p < pos p' /\ buf p' = buf p.
Proof. apply readVarintFrom_advances. Qed.

Lemma readSVarint_advances (p p' : Pbf) (v : Z) :
  readSVarint p = Return (v, p') -> pos p < pos p' /\ buf p' = buf p.
Proof.
  unfold readSVarint. destruct (readVarint p) as [[num q]|e] eqn:Hr;
    simpl; intros H; [|discriminate].
  inversion H; subst. eapply readVarint_advances; eassumption.
Qed.

(** The reader throws nothing but [MalformedBuffer]. *)
Lemma readVarintFrom_throws (n : nat) :
  forall p shift val e,
    readVarintFrom n p shift val = Throw e -> e = MalformedBuffer.
Proof.
  induction n as [|n IH]; intros p shift val e H; simpl in H.
  - inversion H; reflexivity.
  - destruct (byteAt p) as [b|]; [|inversion H; reflexivity].
    destruct (b <? 128); [discriminate|]. eapply IH; eassumption.
Qed.

Lemma readSVarint_throws (p : Pbf) (e : error) :
  readSVarint p = Throw e -> e = MalformedBuffer.
Proof.
  unfold readSVarint, readVarint.
  destruct (readVarintFrom 10 p 0 0) as [[num q]|e'] eqn:Hr; simpl;
    intros H; [discriminate|].
  inversion H; subst. eapply readVarintFrom_throws; eassumption.
Qed.

Lemma readDelta_throws (c : cursor) (e : error) :
  readDelta c = Throw e -> e = MalformedBuffer.
Proof.
  unfold readDelta.
  destruct (readSVarint (c_pbf c)) as [[dx p1]|e1] eqn:H1; simpl.
  - destruct (readSVarint p1) as [[dy p2]|e2] eqn:H2; simpl;
      intros H; [discriminate|].
    inversion H; subst. eapply readSVarint_throws; eassumption.
  - intros H. inversion H; subst. eapply readSVarint_throws; eassumption.
Qed.

(** What reading the command word does to the locals. *)
Lemma fetch_spec (c c' : cursor) :
  fetch c = Return c' ->
  c_end c' = c_end c /\ c_x c' = c_x c /\ c_y c' = c_y c /\
  ((c_length c <= 0 /\ pos (c_pbf c) < pos (c_pbf c')) \/
   (0 < c_length c /\ c_pbf c' = c_pbf c /\ c_cmd c' = c_cmd c /\
    c_length c' = c_length c - 1)).
Proof.
  unfold fetch. destruct (c_length c <=? 0) eqn:Hl.
  - destruct (readVarint (c_pbf c)) as [[w p]|e] eqn:Hr; simpl;
      intros H; [|discriminate].
    inversion H; subst; simpl. apply readVarint_advances in Hr.
    repeat split; try reflexivity. left. split; [lia | tauto].
  - simpl. intros H. inversion H; subst; simpl.
    repeat split; try reflexivity. right. repeat split; lia.
Qed.

Lemma readDelta_spec (c c' : cursor) :
  readDelta c = Return c' ->
  c_end c' = c_end c /\ c_cmd c' = c_cmd c /\ c_length c' = c_length c /\
  pos (c_pbf c) < pos (c_pbf c') /\
  c_x c' = c_x c + fst (match readSVarint (c_pbf c) with
                        | Return (dx, p1) =>
                            match readSVarint p1 with
                            | Return (dy, _) => (dx, dy)
                            | Throw _ => (0, 0)
                            end
                        | Throw _ => (0, 0)
                        end) /\
  c_y c' = c_y c + snd (match readSVarint (c_pbf c) with
                        | Return (dx, p1) =>
                            match readSVarint p1 with
                            | Return (dy, _) => (dx, dy)
                            | Throw _ => (0, 0)
                            end
                        | Throw _ => (0, 0)
                        end).
Proof.
  unfold readDelta.
  destruct (readSVarint (c_pbf c)) as [[dx p1]|e] eqn:H1; simpl;
    [|discriminate].
  destruct (readSVarint p1) as [[dy p2]|e] eqn:H2; simpl; [|discriminate].
  intros H. inversion H; subst; simpl.
  apply readSVarint_advances in H1. apply readSVarint_advances in H2.
  repeat split; try reflexivity. lia.
Qed.

Lemma fetch_lowers (c c1 c' : cursor) :
  more c = true -> fetch c = Return c1 ->
  c_end c' = c_end c1 ->
  pos (c_pbf c1) <= pos (c_pbf c') ->
  (pos (c_pbf c1) = pos (c_pbf c') -> c_length c' = c_length c1) ->
  lowers c c'.
Proof.
  unfold more, lowers, bytes_left, repeats_left.
  intros Hm Hf He Hp Hl. apply Z.ltb_lt in Hm.
  apply fetch_spec in Hf.
  destruct Hf as (He1 & _ & _ & [[Hle Hlt]|(Hpos & Hpbf & _ & Hlen)]).
  - left. lia.
  - rewrite Hpbf in *.
    destruct (Z.eq_dec (pos (c_pbf c)) (pos (c_pbf c'))) as [Heq|Hne].
    + right. rewrite (Hl Heq). split; lia.
    + left. lia.
Qed.

Lemma lg_body_lowers (s s' : lg_state) :
  lg_more s = true -> lg_body s = Return s' -> lowers (lg_cur s) (lg_cur s').
Proof.
  unfold lg_more, lg_body. intros Hm Hb.
  destruct (fetch (lg_cur s)) as [c|e] eqn:Hf; simpl in Hb; [|discriminate].
  unfold lg_exec in Hb.
  destruct ((c_cmd c =? 1) || (c_cmd c =? 2)).
  - destruct (readDelta c) as [c'|e] eqn:Hd; simpl in Hb; [|discriminate].
    apply readDelta_spec in Hd. destruct Hd as (He & _ & _ & Hp & _).
    assert (Hcur : lg_cur s' = c').
    { destruct (c_cmd c =? 1).
      - inversion Hb; reflexivity.
      - destruct (line s); inversion Hb; reflexivity. }
    rewrite Hcur. eapply fetch_lowers; eauto; lia.
  - destruct (c_cmd c =? 7); [|discriminate].
    assert (Hcur : lg_cur s' = c).
    { destruct (line s) as [[|p0 l]|]; inversion Hb; reflexivity. }
    rewrite Hcur. eapply fetch_lowers; eauto; lia.
Qed.

Lemma bb_body_lowers (s s' : bb_state) :
  bb_more s = true -> bb_body s = Return s' -> lowers (bb_cur s) (bb_cur s').
Proof.
  unfold bb_more, bb_body. intros Hm Hb.
  destruct (fetch (bb_cur s)) as [c|e] eqn:Hf; simpl in Hb; [|discriminate].
  unfold bb_exec in Hb.
  destruct ((c_cmd c =? 1) || (c_cmd c =? 2)).
  - destruct (readDelta c) as [c'|e] eqn:Hd; simpl in Hb; [|discriminate].
    apply readDelta_spec in Hd. destruct Hd as (He & _ & _ & Hp & _).
    inversion Hb; subst; simpl. eapply fetch_lowers; eauto; lia.
  - destruct (negb (c_cmd c =? 7)); [discriminate|].
    inversion Hb; subst; simpl. eapply fetch_lowers; eauto; lia.
Qed.

(** Both loops end: some number of iterations is enough. *)
Lemma lg_loop_terminates (s : lg_state) :
  exists n r, while lg_more lg_body n s = Some r.
Proof.
  apply while_terminates
    with (m1 := fun s => bytes_left (lg_cur s))
         (m2 := fun s => repeats_left (lg_cur s)).
  intros s1 s2 Hc Hb. exact (lg_body_lowers s1 s2 Hc Hb).
Qed.

Lemma bb_loop_terminates (s : bb_state) :
  exists n r, while bb_more bb_body n s = Some r.
Proof.
  apply while_terminates
    with (m1 := fun s => bytes_left (bb_cur s))
         (m2 := fun s => repeats_left (bb_cur s)).
  intros s1 s2 Hc Hb. exact (bb_body_lowers s1 s2 Hc Hb).
Qed.

Lemma run_more_fuel (St A : Type) (cond : St -> bool)
    (body : St -> result St) (finish : St -> A) (init : result St)
    (n m : nat) (r : result A) :
  run (while cond body n) finish init = Some r -> (n <= m)%nat ->
  run (while cond body m) finish init = Some r.
Proof.
  unfold run. destruct init as [s|e]; [|auto].
  destruct (while cond body n s) as [w|] eqn:Hw; [|discriminate].
  intros H Hle. rewrite (while_more_fuel _ cond body n m s w Hw Hle). exact H.
Qed.

Lemma run_terminates (St A : Type) (cond : St -> bool)
    (body : St -> result St) (finish : St -> A) (init : result St) :
  (forall s, exists n r, while cond body n s = Some r) ->
  exists n r, run (while cond body n) finish init = Some r.
Proof.
  intros Hterm. unfold run. destruct init as [s|e].
  - destruct (Hterm s) as (n & [s'|e] & Hn); exists n; rewrite Hn; eauto.
  - exists 0%nat. eauto.
Qed.

(** [loadGeometry] and [bbox] are total: with enough iterations they give a
    result, and more iterations give the same result. *)
Lemma loadGeometry_terminates (f : VectorTileFeature) :
  exists n r, loadGeometry n f = Some r.
Proof. apply run_terminates. exact lg_loop_terminates. Qed.

Lemma bbox_terminates (f : VectorTileFeature) :
  exists n r, bbox n f = Some r.
Proof. apply run_terminates. exact bb_loop_terminates. Qed.

Lemma loadGeometry_more_fuel (f : VectorTileFeature) (n m : nat)
    (r : result (list (list Point))) :
  loadGeometry n f = Some r -> (n <= m)%nat -> loadGeometry m f = Some r.
Proof. apply run_more_fuel. Qed.

Lemma bbox_more_fuel (f : VectorTileFeature) (n m : nat)
    (r : result (list bound)) :
  bbox n f = Some r -> (n <= m)%nat -> bbox m f = Some r.
Proof. apply run_more_fuel. Qed.

End DecoderFacts.

(* ================================================================== *)
(** * Decoding a command stream                                        *)
(* ================================================================== *)

Section DecoderClaims.

Import Pbf VectorTileFeature Examples.
Local Open Scope Z_scope.

Lemma loadGeometry_deterministic (f : VectorTileFeature) (n m : nat)
    (r r' : result (list (list Point))) :
  loadGeometry n f = Some r -> loadGeometry m f = Some r' -> r = r'.
Proof.
  intros Hn Hm.
  apply loadGeometry_more_fuel with (m := Nat.max n m) in Hn; [|lia].
  apply loadGeometry_more_fuel with (m := Nat.max n m) in Hm; [|lia].
  congruence.
Qed.

Lemma bbox_deterministic (f : VectorTileFeature) (n m : nat)
    (r r' : result (list bound)) :
  bbox n f = Some r -> bbox m f = Some r' -> r = r'.
Proof.
  intros Hn Hm.
  apply bbox_more_fuel with (m := Nat.max n m) in Hn; [|lia].
  apply bbox_more_fuel with (m := Nat.max n m) in Hm; [|lia].
  congruence.
Qed.

(** C1.  The bytes that encode MoveTo(0,0) LineTo(2,0) LineTo(2,2) ClosePath
    decode, with four iterations or more, to the single ring
    [(0,0),(2,0),(2,2),(0,0)], and their bounding box is [0,0,2,2].  A
    ClosePath on an open ring appends a copy of the first point of the ring
    and leaves the reader and the running coordinates as they are. *)
Theorem triangle_decodes (fuel : nat) :
  loadGeometry (4 + fuel) triangle =
    Some (Return [[mkPoint 0 0; mkPoint 2 0; mkPoint 2 2; mkPoint 0 0]])
  /\ bbox (4 + fuel) triangle =
       Some (Return [Finite 0; Finite 0; Finite 2; Finite 2])
  /\ (forall p e n x y cur0 ls p0 l,
        lg_exec (mkCursor p e 7 n x y) (mkLg cur0 ls (Some (p0 :: l))) =
        Return (mkLg (mkCursor p e 7 n x y) ls (Some ((p0 :: l) ++ [p0])))).
Proof.
  split; [|split].
  - apply loadGeometry_more_fuel with (n := 4%nat); [|lia].
    vm_compute. reflexivity.
  - apply bbox_more_fuel with (n := 4%nat); [|lia].
    vm_compute. reflexivity.
  - intros p e n x y cur0 ls [x0 y0] l. reflexivity.
Qed.

(** An iteration that executes a command other than 1, 2 and 7 throws. *)
Lemma lg_body_unknown (s : lg_state) (cmd : Z) :
  command_at (lg_cur s) = Some cmd -> cmd <> 1 -> cmd <> 2 -> cmd <> 7 ->
  lg_body s = Throw (UnknownCommand cmd).
Proof.
  unfold command_at, lg_body. intros Hc H1 H2 H7.
  destruct (fetch (lg_cur s)) as [c|e]; [|discriminate].
  inversion Hc; subst. simpl. unfold lg_exec.
  apply Z.eqb_neq in H1, H2, H7. rewrite H1, H2, H7. reflexivity.
Qed.

Lemma bb_body_unknown (s : bb_state) (cmd : Z) :
  command_at (bb_cur s) = Some cmd -> cmd <> 1 -> cmd <> 2 -> cmd <> 7 ->
  bb_body s = Throw (UnknownCommand cmd).
Proof.
  unfold command_at, bb_body. intros Hc H1 H2 H7.
  destruct (fetch (bb_cur s)) as [c|e]; [|discriminate].
  inversion Hc; subst. simpl. unfold bb_exec.
  apply Z.eqb_neq in H1, H2, H7. rewrite H1, H2, H7. reflexivity.
Qed.

(** C2.  If the loop of [loadGeometry] enters an iteration that executes a
    command other than 1, 2 and 7, then [loadGeometry] throws the unknown
    command error, and whatever number of iterations it is given it returns
    no geometry; likewise for [bbox]. *)
Theorem unknown_command_aborts (f : VectorTileFeature) (cmd : Z) :
  cmd <> 1 -> cmd <> 2 -> cmd <> 7 ->
  (forall n s,
     In s (lg_visited n f) -> command_at (lg_cur s) = Some cmd ->
     loadGeometry n f = Some (Throw (UnknownCommand cmd)) /\
     forall m r, loadGeometry m f = Some r -> r = Throw (UnknownCommand cmd))
  /\
  (forall n s,
     In s (bb_visited n f) -> command_at (bb_cur s) = Some cmd ->
     bbox n f = Some (Throw (UnknownCommand cmd)) /\
     forall m r, bbox m f = Some r -> r = Throw (UnknownCommand cmd)).
Proof.
  intros H1 H2 H7. split; intros n s Hin Hc.
  - assert (Hn : loadGeometry n f = Some (Throw (UnknownCommand cmd))).
    { unfold loadGeometry, lg_visited, run in *.
      destruct (lg_start f) as [s0|e]; [|contradiction].
      rewrite (while_throws_at _ lg_more lg_body n s0 s _ Hin
                 (lg_body_unknown s cmd Hc H1 H2 H7)).
      reflexivity. }
    split; [exact Hn|].
    intros m r Hm. eapply loadGeometry_deterministic; eassumption.
  - assert (Hn : bbox n f = Some (Throw (UnknownCommand cmd))).
    { unfold bbox, bb_visited, run in *.
      destruct (bb_start f) as [s0|e]; [|contradiction].
      rewrite (while_throws_at _ bb_more bb_body n s0 s _ Hin
                 (bb_body_unknown s cmd Hc H1 H2 H7)).
      reflexivity. }
    split; [exact Hn|].
    intros m r Hm. eapply bbox_deterministic; eassumption.
Qed.

End DecoderClaims.

(* ================================================================== *)
(** * The running coordinates                                          *)
(* ================================================================== *)

Section RunningSum.

Import Pbf VectorTileFeature.
Local Open Scope Z_scope.

(** A loop over some locals that include a [cursor], each iteration of
    which adds to the running coordinates the delta that it reads. *)
Variable St : Type.
Variable cond : St -> bool.
Variable body : St -> result St.
Variable cur : St -> cursor.

Hypothesis body_adds_delta : forall s s',
  body s = Return s' ->
  c_x (cur s') = c_x (cur s) + fst (delta_at (cur s)) /\
  c_y (cur s') = c_y (cur s) + snd (delta_at (cur s)).

Lemma visited_running_sum (n : nat) :
  forall s0 k s,
    nth_error (visited cond body n s0) k = Some s ->
    c_x (cur s) =
      c_x (cur s0) +
      sumZ (map (fun s => fst (delta_at (cur s)))
                (firstn k (visited cond body n s0))) /\
    c_y (cur s) =
      c_y (cur s0) +
      sumZ (map (fun s => snd (delta_at (cur s)))
                (firstn k (visited cond body n s0))).
Proof.
  induction n as [|n IH]; intros s0 k s Hk; simpl in *.
  - destruct (cond s0); destruct k; discriminate.
  - destruct (cond s0); [|destruct k; discriminate].
    destruct k as [|k]; simpl in *.
    + inversion Hk; subst. split; lia.
    + destruct (body s0) as [s1|e] eqn:Hb; [|destruct k; discriminate].
      destruct (body_adds_delta s0 s1 Hb) as [Hx Hy].
      destruct (IH s1 k s Hk) as [IHx IHy].
      rewrite IHx, IHy, Hx, Hy. split; lia.
Qed.

Lemma final_running_sum (n : nat) :
  forall s0 sf,
    while cond body n s0 = Some (Return sf) ->
    c_x (cur sf) =
      c_x (cur s0) +
      sumZ (map (fun s => fst (delta_at (cur s))) (visited cond body n s0)) /\
    c_y (cur sf) =
      c_y (cur s0) +
      sumZ (map (fun s => snd (delta_at (cur s))) (visited cond body n s0)).
Proof.
  induction n as [|n IH]; intros s0 sf Hw; simpl in *.
  - destruct (cond s0); [discriminate|]. inversion Hw; subst.
    simpl. split; lia.
  - destruct (cond s0).
    + destruct (body s0) as [s1|e] eqn:Hb; [|discriminate].
      destruct (body_adds_delta s0 s1 Hb) as [Hx Hy].
      destruct (IH s1 sf Hw) as [IHx IHy].
      simpl. rewrite IHx, IHy, Hx, Hy. split; lia.
    + inversion Hw; subst. simpl. split; lia.
Qed.

End RunningSum.

Section AccumulatorClaims.

Import Pbf VectorTileFeature Examples.
Local Open Scope Z_scope.

(** After a [MoveTo] or [LineTo] has read its delta, the running
    coordinates are the former ones plus that delta. *)
Lemma exec_delta (c0 c c' : cursor) :
  fetch c0 = Return c -> (c_cmd c =? 1) || (c_cmd c =? 2) = true ->
  readDelta c = Return c' ->
  c_x c' = c_x c0 + fst (delta_at c0) /\ c_y c' = c_y c0 + snd (delta_at c0).
Proof.
  intros Hf Hcmd Hd. unfold delta_at. rewrite Hf, Hcmd.
  apply fetch_spec in Hf. destruct Hf as (_ & Hx & Hy & _).
  apply readDelta_spec in Hd. destruct Hd as (_ & _ & _ & _ & Hdx & Hdy).
  rewrite <- Hx, <- Hy. split; assumption.
Qed.

Lemma exec_no_delta (c0 c : cursor) :
  fetch c0 = Return c -> (c_cmd c =? 1) || (c_cmd c =? 2) = false ->
  c_x c = c_x c0 + fst (delta_at c0) /\ c_y c = c_y c0 + snd (delta_at c0).
Proof.
  intros Hf Hcmd. unfold delta_at. rewrite Hf, Hcmd.
  apply fetch_spec in Hf. destruct Hf as (_ & Hx & Hy & _).
  simpl. split; lia.
Qed.

Lemma lg_body_adds_delta (s s' : lg_state) :
  lg_body s = Return s' ->
  c_x (lg_cur s') = c_x (lg_cur s) + fst (delta_at (lg_cur s)) /\
  c_y (lg_cur s') = c_y (lg_cur s) + snd (delta_at (lg_cur s)).
Proof.
  unfold lg_body. intros Hb.
  destruct (fetch (lg_cur s)) as [c|e] eqn:Hf; simpl in Hb; [|discriminate].
  unfold lg_exec in Hb.
  destruct ((c_cmd c =? 1) || (c_cmd c =? 2)) eqn:Hcmd.
  - destruct (readDelta c) as [c'|e] eqn:Hd; simpl in Hb; [|discriminate].
    assert (Hcur : lg_cur s' = c').
    { destruct (c_cmd c =? 1).
      - inversion Hb; reflexivity.
      - destruct (line s); inversion Hb; reflexivity. }
    rewrite Hcur. eapply exec_delta; eassumption.
  - destruct (c_cmd c =? 7); [|discriminate].
    assert (Hcur : lg_cur s' = c).
    { destruct (line s) as [[|p0 l]|]; inversion Hb; reflexivity. }
    rewrite Hcur. eapply exec_no_delta; eassumption.
Qed.

Lemma bb_body_adds_delta (s s' : bb_state) :
  bb_body s = Return s' ->
  c_x (bb_cur s') = c_x (bb_cur s) + fst (delta_at (bb_cur s)) /\
  c_y (bb_cur s') = c_y (bb_cur s) + snd (delta_at (bb_cur s)).
Proof.
  unfold bb_body. intros Hb.
  destruct (fetch (bb_cur s)) as [c|e] eqn:Hf; simpl in Hb; [|discriminate].
  unfold bb_exec in Hb.
  destruct ((c_cmd c =? 1) || (c_cmd c =? 2)) eqn:Hcmd.
  - destruct (readDelta c) as [c'|e] eqn:Hd; simpl in Hb; [|discriminate].
    inversion Hb; subst; simpl. eapply exec_delta; eassumption.
  - destruct (negb (c_cmd c =? 7)); [discriminate|].
    inversion Hb; subst; simpl. eapply exec_no_delta; eassumption.
Qed.

Lemma start_at_origin (f : VectorTileFeature) (c : cursor) :
  start f = Return c -> c_x c = 0 /\ c_y c = 0.
Proof.
  unfold start.
  destruct (readVarint _) as [[n p]|e]; simpl; intros H; [|discriminate].
  inversion H; subst; simpl. split; reflexivity.
Qed.

(** C3.  In [loadGeometry] and in [bbox] alike, the running [(x, y)] with
    which an iteration is entered is the sum, from (0,0), of the deltas read
    by all the iterations before it, whatever rings they opened.  A [MoveTo]
    adds its delta like a [LineTo] does; it stores the open ring, if there
    is one, and starts a ring whose only point is the new [(x, y)], while a
    [LineTo] appends the new [(x, y)] to the open ring. *)
Theorem accumulator_is_cumulative (f : VectorTileFeature) :
  (forall n k s,
     nth_error (lg_visited n f) k = Some s ->
     c_x (lg_cur s) =
       sumZ (map (fun s => fst (delta_at (lg_cur s)))
                 (firstn k (lg_visited n f))) /\
     c_y (lg_cur s) =
       sumZ (map (fun s => snd (delta_at (lg_cur s)))
                 (firstn k (lg_visited n f))))
  /\
  (forall n k s,
     nth_error (bb_visited n f) k = Some s ->
     c_x (bb_cur s) =
       sumZ (map (fun s => fst (delta_at (bb_cur s)))
                 (firstn k (bb_visited n f))) /\
     c_y (bb_cur s) =
       sumZ (map (fun s => snd (delta_at (bb_cur s)))
                 (firstn k (bb_visited n f))))
  /\
  (forall s c c',
     fetch (lg_cur s) = Return c -> c_cmd c = 1 -> readDelta c = Return c' ->
     c_x c' = c_x (lg_cur s) + fst (delta_at (lg_cur s)) /\
     c_y c' = c_y (lg_cur s) + snd (delta_at (lg_cur s)) /\
     lg_body s =
       Return (mkLg c'
                 (match line s with
                  | Some l => lines s ++ [l]
                  | None => lines s
                  end)
                 (Some [mkPoint (c_x c') (c_y c')])))
  /\
  (forall s c c' l,
     fetch (lg_cur s) = Return c -> c_cmd c = 2 -> readDelta c = Return c' ->
     line s = Some l ->
     c_x c' = c_x (lg_cur s) + fst (delta_at (lg_cur s)) /\
     c_y c' = c_y (lg_cur s) + snd (delta_at (lg_cur s)) /\
     lg_body s =
       Return (mkLg c' (lines s) (Some (l ++ [mkPoint (c_x c') (c_y c')])))).
Proof.
  split; [|split; [|split]].
  - intros n k s Hk. unfold lg_visited in *.
    destruct (lg_start f) as [s0|e] eqn:Hs; [|destruct k; discriminate].
    destruct (visited_running_sum _ lg_more lg_body lg_cur
                lg_body_adds_delta n s0 k s Hk) as [Hx Hy].
    unfold lg_start in Hs.
    destruct (start f) as [c|e] eqn:Hst; simpl in Hs; [|discriminate].
    inversion Hs; subst s0. simpl in Hx, Hy.
    destruct (start_at_origin f c Hst) as [H0x H0y].
    rewrite Hx, Hy, H0x, H0y. split; reflexivity.
  - intros n k s Hk. unfold bb_visited in *.
    destruct (bb_start f) as [s0|e] eqn:Hs; [|destruct k; discriminate].
    destruct (visited_running_sum _ bb_more bb_body bb_cur
                bb_body_adds_delta n s0 k s Hk) as [Hx Hy].
    unfold bb_start in Hs.
    destruct (start f) as [c|e] eqn:Hst; simpl in Hs; [|discriminate].
    inversion Hs; subst s0. simpl in Hx, Hy.
    destruct (start_at_origin f c Hst) as [H0x H0y].
    rewrite Hx, Hy, H0x, H0y. split; reflexivity.
  - intros s c c' Hf Hcmd Hd.
    assert (Hor : (c_cmd c =? 1) || (c_cmd c =? 2) = true)
      by (rewrite Hcmd; reflexivity).
    destruct (exec_delta _ _ _ Hf Hor Hd) as [Hx Hy].
    split; [exact Hx|]. split; [exact Hy|].
    unfold lg_body. rewrite Hf. simpl. unfold lg_exec.
    rewrite Hor, Hd, Hcmd. reflexivity.
  - intros s c c' l Hf Hcmd Hd Hl.
    assert (Hor : (c_cmd c =? 1) || (c_cmd c =? 2) = true)
      by (rewrite Hcmd; reflexivity).
    destruct (exec_delta _ _ _ Hf Hor Hd) as [Hx Hy].
    split; [exact Hx|]. split; [exact Hy|].
    unfold lg_body. rewrite Hf. simpl. unfold lg_exec.
    rewrite Hor, Hd, Hcmd, Hl. reflexivity.
Qed.

End AccumulatorClaims.

(* ================================================================== *)
(** * [LineTo] and [ClosePath] without an open ring                    *)
(* ================================================================== *)

Section OpenRingClaims.

Import Pbf VectorTileFeature Examples.
Local Open Scope Z_scope.

(** A [LineTo] with no ring open throws; the reader may throw first. *)
Lemma lg_body_lineTo_unopened (s : lg_state) :
  command_at (lg_cur s) = Some 2 -> line s = None ->
  lg_body s = Throw TypeError \/ lg_body s = Throw MalformedBuffer.
Proof.
  unfold command_at, lg_body. intros Hc Hl.
  destruct (fetch (lg_cur s)) as [c|e]; [|discriminate].
  inversion Hc as [Hcmd]. simpl. unfold lg_exec. rewrite Hcmd, Hl. simpl.
  destruct (readDelta c) as [c'|e] eqn:Hd; simpl.
  - left. reflexivity.
  - right. rewrite (readDelta_throws c e Hd). reflexivity.
Qed.

(** An iteration that is not a [MoveTo] does not open a ring. *)
Lemma lg_body_keeps_unopened (s s' : lg_state) :
  lg_body s = Return s' -> line s = None ->
  command_at (lg_cur s) <> Some 1 -> line s' = None.
Proof.
  unfold command_at, lg_body. intros Hb Hl Hc.
  destruct (fetch (lg_cur s)) as [c|e]; simpl in Hb; [|discriminate].
  unfold lg_exec in Hb. rewrite Hl in Hb.
  destruct (c_cmd c =? 1) eqn:H1.
  - apply Z.eqb_eq in H1. rewrite H1 in Hc. congruence.
  - simpl in Hb. destruct (c_cmd c =? 2).
    + destruct (readDelta c); simpl in Hb; discriminate.
    + destruct (c_cmd c =? 7); [|discriminate].
      inversion Hb; reflexivity.
Qed.

(** A ring is open only after some iteration has executed a [MoveTo]. *)
Lemma open_ring_has_moveTo (n : nat) :
  forall s0 k s,
    nth_error (visited lg_more lg_body n s0) k = Some s ->
    line s0 = None -> line s <> None ->
    exists j, (j < k)%nat /\
      nth_error (map (fun s => command_at (lg_cur s))
                     (visited lg_more lg_body n s0)) j = Some (Some 1).
Proof.
  induction n as [|n IH]; intros s0 k s Hk H0 Hs; simpl in *.
  - destruct (lg_more s0); destruct k; discriminate.
  - destruct (lg_more s0); [|destruct k; discriminate].
    destruct k as [|k]; simpl in *.
    + inversion Hk; subst. contradiction.
    + destruct (lg_body s0) as [s1|e] eqn:Hb; [|destruct k; discriminate].
      destruct (option_eq_dec_Z (command_at (lg_cur s0)) (Some 1))
        as [H1|H1].
      * exists 0%nat. split; [lia|]. simpl. rewrite H1. reflexivity.
      * destruct (IH s1 k s Hk (lg_body_keeps_unopened s0 s1 Hb H0 H1) Hs)
          as (j & Hj & Hc).
        exists (S j). split; [lia|exact Hc].
Qed.

(** The state behind an entry of the command trace. *)
Lemma lg_commands_state (n : nat) (f : VectorTileFeature) (k : nat)
    (cmd : option Z) :
  nth_error (lg_commands n f) k = Some cmd ->
  exists s0 s,
    lg_start f = Return s0 /\ line s0 = None /\
    nth_error (visited lg_more lg_body n s0) k = Some s /\
    command_at (lg_cur s) = cmd /\
    lg_commands n f =
      map (fun s => command_at (lg_cur s)) (visited lg_more lg_body n s0).
Proof.
  unfold lg_commands, lg_visited. intros Hk.
  destruct (lg_start f) as [s0|e] eqn:Hs; [|destruct k; discriminate].
  rewrite nth_error_map in Hk.
  destruct (nth_error (visited lg_more lg_body n s0) k) as [s|] eqn:Hn;
    [|discriminate].
  inversion Hk; subst.
  assert (H0 : line s0 = None).
  { unfold lg_start in Hs. destruct (start f); simpl in Hs; [|discriminate].
    inversion Hs; reflexivity. }
  exists s0, s. auto.
Qed.

Lemma loadGeometry_throws_at (n : nat) (f : VectorTileFeature)
    (s0 s : lg_state) (e : error) :
  lg_start f = Return s0 -> In s (visited lg_more lg_body n s0) ->
  lg_body s = Throw e -> loadGeometry n f = Some (Throw e).
Proof.
  intros Hs Hin Hb. unfold loadGeometry, run. rewrite Hs.
  rewrite (while_throws_at _ lg_more lg_body n s0 s e Hin Hb). reflexivity.
Qed.

(** C10.  If an iteration of [loadGeometry] executes a [LineTo] and no
    iteration before it executed a [MoveTo], [loadGeometry] throws, and the
    error is not the unknown command error: it is the type error of
    [line.push] on an [undefined] ring as soon as the two deltas can be
    read, and the error of the reader otherwise.  Hence in a decode that
    returns, every [LineTo] comes after some [MoveTo].  A [ClosePath] with
    no ring open changes neither [lines] nor [line]. *)
Theorem lineTo_needs_moveTo (f : VectorTileFeature) :
  (forall n k,
     nth_error (lg_commands n f) k = Some (Some 2) ->
     (forall j, (j < k)%nat ->
        nth_error (lg_commands n f) j <> Some (Some 1)) ->
     loadGeometry n f = Some (Throw TypeError) \/
     loadGeometry n f = Some (Throw MalformedBuffer))
  /\
  (forall s c c',
     fetch (lg_cur s) = Return c -> c_cmd c = 2 -> line s = None ->
     readDelta c = Return c' -> lg_body s = Throw TypeError)
  /\
  (forall n ls k,
     loadGeometry n f = Some (Return ls) ->
     nth_error (lg_commands n f) k = Some (Some 2) ->
     exists j, (j < k)%nat /\ nth_error (lg_commands n f) j = Some (Some 1))
  /\
  (forall s c,
     fetch (lg_cur s) = Return c -> c_cmd c = 7 -> line s = None ->
     lg_body s = Return (mkLg c (lines s) None)).
Proof.
  split; [|split; [|split]].
  - intros n k Hk Hno.
    destruct (lg_commands_state n f k _ Hk)
      as (s0 & s & Hs & H0 & Hn & Hc & Heq).
    assert (Hl : line s = None).
    { destruct (line s) as [l|] eqn:Hl; [|reflexivity]. exfalso.
      destruct (open_ring_has_moveTo n s0 k s Hn H0) as (j & Hj & Hm).
      - rewrite Hl. discriminate.
      - apply (Hno j Hj). rewrite Heq. exact Hm. }
    apply nth_error_In in Hn.
    destruct (lg_body_lineTo_unopened s Hc Hl) as [Hb|Hb].
    + left. eapply loadGeometry_throws_at; eassumption.
    + right. eapply loadGeometry_throws_at; eassumption.
  - intros s c c' Hf Hcmd Hl Hd.
    unfold lg_body. rewrite Hf. simpl. unfold lg_exec.
    rewrite Hcmd, Hd, Hl. reflexivity.
  - intros n ls k Hr Hk.
    destruct (lg_commands_state n f k _ Hk)
      as (s0 & s & Hs & H0 & Hn & Hc & Heq).
    rewrite Heq. apply open_ring_has_moveTo with (s := s); try assumption.
    intros Hl. apply nth_error_In in Hn.
    destruct (lg_body_lineTo_unopened s Hc Hl) as [Hb|Hb];
      rewrite (loadGeometry_throws_at n f s0 s _ Hs Hn Hb) in Hr;
      discriminate.
  - intros s c Hf Hcmd Hl.
    unfold lg_body. rewrite Hf. simpl. unfold lg_exec.
    rewrite Hcmd, Hl. reflexivity.
Qed.

End OpenRingClaims.

(* ================================================================== *)
(** * Classifying rings                                                *)
(* ================================================================== *)

Section ClassifierClaims.

Import VectorTileFeature Examples.
Local Open Scope Z_scope.

Lemma signedAreaLoop_from (ring : list Point) (n : nat) :
  forall i sum,
    signedAreaLoop ring n (S i) i sum =
    sum + sumZ (map (fun k => shoelace_term ring k (k - 1)) (seq (S i) n)).
Proof.
  induction n as [|n IH]; intros i sum.
  - simpl. lia.
  - cbn [signedAreaLoop seq map sumZ fold_right].
    rewrite IH. unfold shoelace_term, sumZ.
    replace (S i - 1)%nat with i by lia. lia.
Qed.

(** [signedArea] is the sum over every index [i] of the term for the pair
    of [i] and the index before it, the last index for [i = 0]. *)
Lemma signedArea_shoelace (ring : list Point) :
  signedArea ring =
  sumZ (map (fun i => shoelace_term ring i
                        ((i + List.length ring - 1) mod List.length ring))
            (seq 0 (List.length ring))).
Proof.
  unfold signedArea. destruct (List.length ring) as [|n].
  - reflexivity.
  - cbn [signedAreaLoop]. rewrite signedAreaLoop_from.
    cbn [seq map sumZ fold_right].
    replace ((0 + S n - 1) mod S n)%nat with (S n - 1)%nat
      by (symmetry; apply Nat.mod_small; lia).
    unfold shoelace_term at 2. rewrite Z.add_0_l. f_equal.
    unfold sumZ. f_equal.
    apply map_ext_in. intros k Hk. apply in_seq in Hk.
    f_equal.
    replace (k + S n - 1)%nat with ((k - 1) + 1 * S n)%nat by lia.
    rewrite Nat.Div0.mod_add. symmetry. apply Nat.mod_small. lia.
Qed.

(** Degenerate rings are passed over. *)
Lemma cr_loop_skips_degenerate (rings : list (list Point)) :
  forall s,
    cr_loop rings s =
    cr_loop (filter (fun r => negb (signedArea r =? 0)) rings) s.
Proof.
  induction rings as [|r rings IH]; intros s; simpl.
  - reflexivity.
  - destruct (signedArea r =? 0) eqn:Ha; simpl.
    + unfold cr_body at 1. rewrite Ha. simpl. apply IH.
    + destruct (cr_body s r) as [s'|e]; simpl; [apply IH | reflexivity].
Qed.

Lemma cr_body_returns (s : cr_state) (ring : list Point) :
  cr_inv s -> exists s', cr_body s ring = Return s' /\ cr_inv s'.
Proof.
  unfold cr_inv, cr_body. intros Hinv.
  destruct (signedArea ring =? 0).
  - exists s. split; [reflexivity | exact Hinv].
  - destruct (Bool.eqb _ (signedArea ring <? 0)) eqn:He.
    + eexists. split; [reflexivity|]. simpl. discriminate.
    + destruct (polygon s) as [p|].
      * eexists. split; [reflexivity|]. simpl. discriminate.
      * rewrite (Hinv eq_refl) in He. rewrite Bool.eqb_reflx in He.
        discriminate.
Qed.

Lemma cr_loop_returns (rings : list (list Point)) :
  forall s, cr_inv s -> exists s', cr_loop rings s = Return s' /\ cr_inv s'.
Proof.
  induction rings as [|r rings IH]; intros s Hinv; simpl.
  - exists s. split; [reflexivity | exact Hinv].
  - destruct (cr_body_returns s r Hinv) as (s1 & Hb & Hinv1).
    rewrite Hb. simpl. apply IH. exact Hinv1.
Qed.

Lemma cr_start_inv : cr_inv (mkCr [] None None).
Proof. intros _. reflexivity. Qed.

(** C4.  Two non-degenerate rings whose signed areas have opposite signs
    classify as one polygon, the first ring with the second as its hole; two
    whose signed areas have the same sign classify as two polygons of one
    ring each.  A ring of signed area zero is passed over, and an input of
    at most one ring is returned as one group, unclassified.  The signed
    area is the sum of [(p2.x - p1.x) * (p1.y + p2.y)] over each index and
    the index before it, wrapping around. *)
Theorem classifyRings_two_rings (r1 r2 : list Point) :
  signedArea r1 <> 0 -> signedArea r2 <> 0 ->
  ((signedArea r1 < 0 /\ 0 < signedArea r2) \/
   (0 < signedArea r1 /\ signedArea r2 < 0) ->
   classifyRings [r1; r2] = Return [[r1; r2]])
  /\
  ((signedArea r1 < 0 /\ signedArea r2 < 0) \/
   (0 < signedArea r1 /\ 0 < signedArea r2) ->
   classifyRings [r1; r2] = Return [[r1]; [r2]])
  /\
  (forall rings,
     (2 <= List.length rings)%nat ->
     classifyRings rings =
     (s <- cr_loop (filter (fun r => negb (signedArea r =? 0)) rings)
                   (mkCr [] None None) ;;
      Return (cr_finish s)))
  /\
  (forall rings,
     (List.length rings <= 1)%nat -> classifyRings rings = Return [rings])
  /\
  (forall ring,
     signedArea ring =
     sumZ (map (fun i =>
                  let j := ((i + List.length ring - 1)
                            mod List.length ring)%nat in
                  (px (nth j ring origin) - px (nth i ring origin)) *
                  (py (nth i ring origin) + py (nth j ring origin)))
               (seq 0 (List.length ring)))).
Proof.
  intros Hn1 Hn2.
  assert (Hz1 : (signedArea r1 =? 0) = false) by (apply Z.eqb_neq; exact Hn1).
  assert (Hz2 : (signedArea r2 =? 0) = false) by (apply Z.eqb_neq; exact Hn2).
  split; [|split; [|split; [|split]]].
  - intros Hopp. unfold classifyRings. simpl. unfold cr_body. simpl.
    rewrite Hz1, Bool.eqb_reflx. simpl. unfold cr_body. simpl. rewrite Hz2.
    replace (Bool.eqb (signedArea r1 <? 0) (signedArea r2 <? 0)) with false.
    + reflexivity.
    + symmetry. apply Bool.eqb_false_iff.
      destruct Hopp as [[H1 H2]|[H1 H2]].
      * rewrite (proj2 (Z.ltb_lt _ _) H1).
        rewrite (proj2 (Z.ltb_ge _ _)); [discriminate | lia].
      * rewrite (proj2 (Z.ltb_lt _ _) H2).
        rewrite (proj2 (Z.ltb_ge _ _)); [discriminate | lia].
  - intros Hsame. unfold classifyRings. simpl. unfold cr_body. simpl.
    rewrite Hz1, Bool.eqb_reflx. simpl. unfold cr_body. simpl. rewrite Hz2.
    replace (Bool.eqb (signedArea r1 <? 0) (signedArea r2 <? 0)) with true.
    + reflexivity.
    + symmetry. apply Bool.eqb_true_iff.
      destruct Hsame as [[H1 H2]|[H1 H2]].
      * rewrite !(proj2 (Z.ltb_lt _ _)) by assumption. reflexivity.
      * rewrite !(proj2 (Z.ltb_ge _ _)) by lia. reflexivity.
  - intros rings Hlen. unfold classifyRings.
    replace (List.length rings <=? 1)%nat with false
      by (symmetry; apply Nat.leb_gt; lia).
    rewrite cr_loop_skips_degenerate. reflexivity.
  - intros rings Hlen. unfold classifyRings.
    rewrite (proj2 (Nat.leb_le _ _) Hlen). reflexivity.
  - intros ring. apply signedArea_shoelace.
Qed.

(** C5 (as amended).  Whenever the loop of [classifyRings] takes the hole
    branch, a polygon is open and the ring is appended to it: the first
    non-degenerate ring sets the reference winding and opens a polygon in
    the same iteration.  So [classifyRings] returns on every input. *)
Theorem hole_branch_has_open_polygon (pre : list (list Point))
    (ring : list Point) (s : cr_state) :
  cr_loop pre (mkCr [] None None) = Return s ->
  takes_hole_branch s ring ->
  (exists p,
     polygon s = Some p /\
     cr_body s ring = Return (mkCr (polygons s) (Some (p ++ [ring])) (ccw s)))
  /\ (forall rings, exists polys, classifyRings rings = Return polys).
Proof.
  intros Hloop [Hne Hhole]. split.
  - destruct (cr_loop_returns pre _ cr_start_inv) as (s' & Hs' & Hinv).
    rewrite Hloop in Hs'. inversion Hs'; subst s'.
    destruct (polygon s) as [p|] eqn:Hp.
    + exists p. split; [reflexivity|].
      unfold cr_body. apply Z.eqb_neq in Hne. rewrite Hne, Hhole, Hp.
      destruct (ccw s) as [b|] eqn:Hc; [reflexivity|].
      rewrite Bool.eqb_reflx in Hhole. discriminate.
    + rewrite (Hinv Hp) in Hhole. rewrite Bool.eqb_reflx in Hhole.
      discriminate.
  - intros rings. unfold classifyRings.
    destruct (List.length rings <=? 1)%nat; [eexists; reflexivity|].
    destruct (cr_loop_returns rings _ cr_start_inv) as (s' & Hs' & _).
    rewrite Hs'. simpl. eexists; reflexivity.
Qed.

(** C5 (as stated) fails: no input makes the loop take the hole branch
    while no polygon is open. *)
Lemma hole_before_exterior_never_happens :
  ~ exists pre ring s,
      cr_loop pre (mkCr [] None None) = Return s /\
      takes_hole_branch s ring /\ polygon s = None.
Proof.
  intros (pre & ring & s & Hloop & [Hne Hhole] & Hp).
  destruct (cr_loop_returns pre _ cr_start_inv) as (s' & Hs' & Hinv).
  rewrite Hloop in Hs'. inversion Hs'; subst s'.
  rewrite (Hinv Hp) in Hhole. rewrite Bool.eqb_reflx in Hhole.
  discriminate.
Qed.

End ClassifierClaims.

(* ================================================================== *)
(** * Serializing to GeoJSON                                           *)
(* ================================================================== *)

Section SerializerClaims.

Import Pbf VectorTileFeature Examples Mercator.
Local Open Scope R_scope.

(** In the default branch every point is replaced by the pair that the
    inverse projections of [mercator_coordinate.js] give for its global
    position divided by [size]. *)
Lemma mercatorProject_composes (size x y e : R) (line : list Point) :
  mercatorProject size (e * x) (e * y) (map Some line) =
  Return (map (fun p =>
                 Pair (lngFromMercatorX ((x * e + IZR (px p)) / size) None)
                      (latFromMercatorY ((y * e + IZR (py p)) / size) None))
              line).
Proof.
  unfold mercatorProject.
  induction line as [|p line IH]; simpl.
  - reflexivity.
  - rewrite IH. simpl. unfold lngFromMercatorX, latFromMercatorY.
    f_equal. f_equal. f_equal.
    + unfold Rdiv. ring.
    + f_equal. f_equal. f_equal. f_equal. unfold Rdiv. ring.
Qed.

(** With bounds, [project] leaves every slot as it was: the loop of
    [gaussProject] runs over the bounds object, which has no slots. *)
Lemma project_bounds_is_identity (size x0 y0 : R) (b : LngLatBounds)
    (line : list (option Point)) :
  project size x0 y0 (Some b) line = Return (map unprojected line).
Proof. reflexivity. Qed.

Lemma project_returns (size x0 y0 : R) (bounds : option LngLatBounds)
    (line : list Point) :
  exists vs, project size x0 y0 bounds (map Some line) = Return vs.
Proof.
  destruct bounds as [b|].
  - eexists. apply project_bounds_is_identity.
  - unfold project, mercatorProject.
    induction line as [|p line [vs IH]]; simpl.
    + eexists; reflexivity.
    + rewrite IH. simpl. eexists; reflexivity.
Qed.

Lemma project_rings_returns (size x0 y0 : R) (bounds : option LngLatBounds)
    (rings : list (list Point)) :
  exists rs,
    mapM (fun l => project size x0 y0 bounds (map Some l)) rings = Return rs.
Proof.
  induction rings as [|r rings [rs IH]]; simpl.
  - eexists; reflexivity.
  - destruct (project_returns size x0 y0 bounds r) as [vs Hvs].
    rewrite Hvs, IH. simpl. eexists; reflexivity.
Qed.

(** C6, at an input where it fails.  For the point feature with the single
    point (1,1) in the tile (0,0,0) with the bounds [unit_box],
    [toGeoJSON] emits the decoded point itself, not the pair of the
    bounds-relative inverses of its position. *)
Theorem bounds_projection_not_applied :
  toGeoJSON 1 one_point 0 0 0 (Some unit_box) =
    Some (Return (mkGeoJSON
                    (mkGeometry (Some "Point"%string)
                                (PointObject (mkPoint 1 1)))
                    [] None))
  /\
  PointObject (mkPoint 1 1) <>
    Pair (lngFromMercatorX
            ((0 * IZR (extent one_point) + 1) /
             (IZR (extent one_point) * Rpower 2 0)) (Some unit_box))
         (latFromMercatorY
            ((0 * IZR (extent one_point) + 1) /
             (IZR (extent one_point) * Rpower 2 0)) (Some unit_box)).
Proof.
  split; [reflexivity | discriminate].
Qed.

(** C7.  [toGeoJSON] emits the type of the feature and the single component
    when the projected [coords] has exactly one component, and otherwise
    the type prefixed with [Multi] and the whole of [coords].  A point
    feature that decodes to one point gives type [Point], with the pair
    [[lng, lat]] as coordinates in the default projection.  A polygon
    feature whose rings classify into two groups gives type [MultiPolygon]
    with two groups of coordinates. *)
Theorem geometry_type_selection (fuel : nat) (f : VectorTileFeature)
    (x y z : R) (bounds : option LngLatBounds) :
  (forall g,
     toGeoJSON fuel f x y z bounds = Some (Return g) ->
     exists coords cs,
       loadGeometry fuel f = Some (Return coords) /\
       projectCoords (IZR (extent f) * Rpower 2 z) (IZR (extent f) * x)
                     (IZR (extent f) * y) (type f) bounds coords = Return cs /\
       ((cs = [coordinates (feature_geometry g)] /\
         geometry_type (feature_geometry g) = typeName (type f)) \/
        (List.length cs <> 1%nat /\
         coordinates (feature_geometry g) = Array cs /\
         geometry_type (feature_geometry g) =
           Some ("Multi" ++ match typeName (type f) with
                            | Some s => s
                            | None => "undefined"
                            end)%string)))
  /\
  (forall p,
     type f = 1%Z -> loadGeometry fuel f = Some (Return [[p]]) ->
     (exists c,
        toGeoJSON fuel f x y z bounds =
        Some (Return (mkGeoJSON (mkGeometry (Some "Point"%string) c)
                                (properties f) (id f)))) /\
     toGeoJSON fuel f x y z None =
       Some (Return
         (mkGeoJSON
            (mkGeometry (Some "Point"%string)
               (Pair (lngFromMercatorX
                        ((x * IZR (extent f) + IZR (px p)) /
                         (IZR (extent f) * Rpower 2 z)) None)
                     (latFromMercatorY
                        ((y * IZR (extent f) + IZR (py p)) /
                         (IZR (extent f) * Rpower 2 z)) None)))
            (properties f) (id f))))
  /\
  (forall rings g1 g2,
     type f = 3%Z -> loadGeometry fuel f = Some (Return rings) ->
     classifyRings rings = Return [g1; g2] ->
     exists c1 c2,
       toGeoJSON fuel f x y z bounds =
       Some (Return (mkGeoJSON
                       (mkGeometry (Some "MultiPolygon"%string)
                                   (Array [c1; c2]))
                       (properties f) (id f)))).
Proof.
  split; [|split].
  - intros g Hg. unfold toGeoJSON in Hg.
    destruct (loadGeometry fuel f) as [[coords|e]|]; simpl in Hg;
      try discriminate.
    destruct (projectCoords _ _ _ (type f) bounds coords) as [cs|e] eqn:Hp;
      simpl in Hg; [|discriminate].
    inversion Hg; subst g. simpl. exists coords, cs.
    split; [reflexivity|]. split; [exact Hp|].
    destruct cs as [|c [|c' cs]]; simpl.
    + right. repeat split. discriminate.
    + left. split; reflexivity.
    + right. repeat split. discriminate.
  - intros p Ht Hl. unfold toGeoJSON. rewrite Hl, Ht. simpl. split.
    + destruct bounds as [b|]; simpl; eexists; reflexivity.
    + unfold lngFromMercatorX, latFromMercatorY.
      replace ((IZR (px p) + IZR (extent f) * x) * 360 /
               (IZR (extent f) * Rpower 2 z))
        with ((x * IZR (extent f) + IZR (px p)) /
              (IZR (extent f) * Rpower 2 z) * 360)
        by (unfold Rdiv; ring).
      replace ((IZR (py p) + IZR (extent f) * y) * 360 /
               (IZR (extent f) * Rpower 2 z))
        with ((y * IZR (extent f) + IZR (py p)) /
              (IZR (extent f) * Rpower 2 z) * 360)
        by (unfold Rdiv; ring).
      reflexivity.
  - intros rings g1 g2 Ht Hl Hc. unfold toGeoJSON. rewrite Hl, Ht. simpl.
    unfold projectCoords. simpl. rewrite Hc. simpl.
    destruct (project_rings_returns (IZR (extent f) * Rpower 2 z)
                (IZR (extent f) * x) (IZR (extent f) * y) bounds g1)
      as [rs1 H1].
    destruct (project_rings_returns (IZR (extent f) * Rpower 2 z)
                (IZR (extent f) * x) (IZR (extent f) * y) bounds g2)
      as [rs2 H2].
    rewrite H1. simpl. rewrite H2. simpl.
    eexists; eexists; reflexivity.
Qed.

End SerializerClaims.

(* ================================================================== *)
(** * Round trips of the projection                                    *)
(* ================================================================== *)

Section ProjectionClaims.

Import Mercator Examples.
Local Open Scope R_scope.

(** C8.  For a latitude strictly between -85.06 and 85.06 degrees and a
    longitude from -180 up to 180 degrees, projecting and projecting back
    gives the latitude and the longitude again; with a bounds rectangle of
    positive width and height, the same holds for every point inside the
    rectangle or on its boundary.  Numbers are real numbers here, so that
    the round trip is an equality. *)
Theorem projection_round_trip :
  (forall lat lng,
     - (8506 / 100) < lat < 8506 / 100 -> -180 <= lng < 180 ->
     latFromMercatorY (mercatorYfromLat lat None) None = lat /\
     lngFromMercatorX (mercatorXfromLng lng None) None = lng)
  /\
  (forall b lat lng,
     getWest b < getEast b -> getSouth b < getNorth b ->
     getWest b <= lng <= getEast b -> getSouth b <= lat <= getNorth b ->
     latFromMercatorY (mercatorYfromLat lat (Some b)) (Some b) = lat /\
     lngFromMercatorX (mercatorXfromLng lng (Some b)) (Some b) = lng).
Proof.
  split.
  - intros lat lng Hlat Hlng. split.
    + apply lat_roundtrip_default. lra.
    + apply lng_roundtrip_default.
  - intros b lat lng Hwe Hsn Hlng Hlat. split.
    + apply lat_roundtrip_bounds. lra.
    + apply lng_roundtrip_bounds. lra.
Qed.

(** C9, at an input where it fails.  With the bounds [unit_box], whose north
    edge is at 2 and whose south edge is at 0, the altitude 1 at latitude 1
    projects to [z = 1] and [y = 1/2], and [toAltitude] gives back 3/2: the
    bounds branch of [altitudeFromMercatorZ] subtracts the projected [y]
    from the north edge where the forward function subtracted the
    latitude. *)
Theorem altitude_bounds_not_inverted :
  mc_z (fromLngLat 1 1 1 (Some unit_box)) = 1 /\
  mc_y (fromLngLat 1 1 1 (Some unit_box)) = 1 / 2 /\
  toAltitude (fromLngLat 1 1 1 (Some unit_box)) (Some unit_box) = 3 / 2 /\
  altitudeFromMercatorZ (mercatorZfromAltitude 1 1 (Some unit_box))
                        (mercatorYfromLat 1 (Some unit_box))
                        (Some unit_box) <> 1.
Proof.
  unfold toAltitude, fromLngLat, altitudeFromMercatorZ,
    mercatorZfromAltitude, mercatorYfromLat, convert, unit_box.
  cbn [mc_z mc_y getNorth getSouth].
  repeat split; try lra.
Qed.

End ProjectionClaims.

(* ================================================================== *)
(** * The theorems at concrete inputs                                  *)
(* ================================================================== *)

Section Instances.

Import Pbf VectorTileFeature Examples Mercator.

(** The unknown-command theorem on [bad_command], whose second iteration
    executes the command 3. *)
Lemma unknown_command_aborts_witness :
  (In before_bad_command (lg_visited 2 bad_command) /\
   command_at (lg_cur before_bad_command) = Some 3%Z /\
   loadGeometry 2 bad_command = Some (Throw (UnknownCommand 3)) /\
   forall m r, loadGeometry m bad_command = Some r ->
               r = Throw (UnknownCommand 3))
  /\
  (In bbox_before_bad_command (bb_visited 2 bad_command) /\
   command_at (bb_cur bbox_before_bad_command) = Some 3%Z /\
   bbox 2 bad_command = Some (Throw (UnknownCommand 3)) /\
   forall m r, bbox m bad_command = Some r -> r = Throw (UnknownCommand 3)).
Proof.
  assert (Hlg : In before_bad_command (lg_visited 2 bad_command))
    by (right; left; reflexivity).
  assert (Hbb : In bbox_before_bad_command (bb_visited 2 bad_command))
    by (right; left; reflexivity).
  destruct (unknown_command_aborts bad_command 3) as [H1 H2];
    try discriminate.
  split.
  - split; [exact Hlg|]. split; [reflexivity|].
    exact (H1 2%nat before_bad_command Hlg eq_refl).
  - split; [exact Hbb|]. split; [reflexivity|].
    exact (H2 2%nat bbox_before_bad_command Hbb eq_refl).
Defined.

(** The running coordinates of [two_rings]: the second [MoveTo] is entered
    at (2,2), the last point of the first ring, and its delta (3,3) leads to
    (5,5), where the second ring starts. *)
Lemma accumulator_is_cumulative_witness :
  (nth_error (lg_visited 6 two_rings) 4 = Some after_second_moveTo /\
   sumZ (map (fun s => fst (delta_at (lg_cur s)))
             (firstn 4 (lg_visited 6 two_rings))) = 5%Z /\
   sumZ (map (fun s => snd (delta_at (lg_cur s)))
             (firstn 4 (lg_visited 6 two_rings))) = 5%Z)
  /\
  (nth_error (bb_visited 6 two_rings) 4 = Some bbox_after_second_moveTo /\
   sumZ (map (fun s => fst (delta_at (bb_cur s)))
             (firstn 4 (bb_visited 6 two_rings))) = 5%Z /\
   sumZ (map (fun s => snd (delta_at (bb_cur s)))
             (firstn 4 (bb_visited 6 two_rings))) = 5%Z)
  /\
  (fetch (lg_cur before_second_moveTo) = Return second_moveTo_word /\
   readDelta second_moveTo_word = Return second_moveTo_read /\
   lg_body before_second_moveTo = Return after_second_moveTo)
  /\
  (fetch (lg_cur after_second_moveTo) = Return next_lineTo_word /\
   readDelta next_lineTo_word = Return next_lineTo_read /\
   lg_body after_second_moveTo =
     Return (mkLg next_lineTo_read [first_ring]
                  (Some [mkPoint 5 5; mkPoint 7 5]))).
Proof.
  destruct (accumulator_is_cumulative two_rings) as (H1 & H2 & H3 & H4).
  split; [|split; [|split]].
  - split; [reflexivity|].
    destruct (H1 6%nat 4%nat after_second_moveTo eq_refl) as [Hx Hy].
    split; [rewrite <- Hx | rewrite <- Hy]; reflexivity.
  - split; [reflexivity|].
    destruct (H2 6%nat 4%nat bbox_after_second_moveTo eq_refl) as [Hx Hy].
    split; [rewrite <- Hx | rewrite <- Hy]; reflexivity.
  - split; [reflexivity|]. split; [reflexivity|].
    exact (proj2 (proj2 (H3 before_second_moveTo second_moveTo_word
                           second_moveTo_read eq_refl eq_refl eq_refl))).
  - split; [reflexivity|]. split; [reflexivity|].
    exact (proj2 (proj2 (H4 after_second_moveTo next_lineTo_word
                           next_lineTo_read [mkPoint 5 5]
                           eq_refl eq_refl eq_refl eq_refl))).
Defined.

(** [line_first] fails on its [LineTo]; in [triangle] the [LineTo] at
    index 1 follows the [MoveTo] at index 0; the leading [ClosePath] of
    [close_first] changes nothing. *)
Lemma lineTo_needs_moveTo_witness :
  (nth_error (lg_commands 1 line_first) 0 = Some (Some 2%Z) /\
   (loadGeometry 1 line_first = Some (Throw TypeError) \/
    loadGeometry 1 line_first = Some (Throw MalformedBuffer)))
  /\
  (fetch (lg_cur line_first_start) = Return line_first_word /\
   readDelta line_first_word = Return line_first_read /\
   lg_body line_first_start = Throw TypeError)
  /\
  (loadGeometry 4 triangle =
     Some (Return [[mkPoint 0 0; mkPoint 2 0; mkPoint 2 2; mkPoint 0 0]]) /\
   nth_error (lg_commands 4 triangle) 1 = Some (Some 2%Z) /\
   exists j, (j < 1)%nat /\
     nth_error (lg_commands 4 triangle) j = Some (Some 1%Z))
  /\
  (fetch (lg_cur close_first_start) = Return close_first_word /\
   lg_body close_first_start = Return (mkLg close_first_word [] None)).
Proof.
  assert (Ha : nth_error (lg_commands 1 line_first) 0 = Some (Some 2%Z))
    by (vm_compute; reflexivity).
  assert (Hf : fetch (lg_cur line_first_start) = Return line_first_word)
    by (vm_compute; reflexivity).
  assert (Hd : readDelta line_first_word = Return line_first_read)
    by (vm_compute; reflexivity).
  assert (Hr : loadGeometry 4 triangle =
               Some (Return [[mkPoint 0 0; mkPoint 2 0; mkPoint 2 2;
                              mkPoint 0 0]]))
    by (vm_compute; reflexivity).
  assert (Hk : nth_error (lg_commands 4 triangle) 1 = Some (Some 2%Z))
    by (vm_compute; reflexivity).
  assert (Hc : fetch (lg_cur close_first_start) = Return close_first_word)
    by (vm_compute; reflexivity).
  split; [|split; [|split]].
  - split; [exact Ha|].
    destruct (lineTo_needs_moveTo line_first) as (H1 & _).
    apply (H1 1%nat 0%nat Ha). intros j Hj. inversion Hj.
  - split; [exact Hf|]. split; [exact Hd|].
    destruct (lineTo_needs_moveTo line_first) as (_ & H2 & _).
    exact (H2 line_first_start line_first_word line_first_read
              Hf eq_refl eq_refl Hd).
  - split; [exact Hr|]. split; [exact Hk|].
    destruct (lineTo_needs_moveTo triangle) as (_ & _ & H3 & _).
    exact (H3 4%nat _ 1%nat Hr Hk).
  - split; [exact Hc|].
    destruct (lineTo_needs_moveTo close_first) as (_ & _ & _ & H4).
    exact (H4 close_first_start close_first_word Hc eq_refl eq_refl).
Defined.

(** [square] has signed area 8 and [square_reversed] has -8. *)
Lemma classifyRings_two_rings_witness :
  (signedArea square = 8%Z /\ signedArea square_reversed = (-8)%Z /\
   classifyRings [square; square_reversed] =
     Return [[square; square_reversed]])
  /\ classifyRings [square; square] = Return [[square]; [square]]
  /\ classifyRings [square] = Return [[square]].
Proof.
  split; [|split].
  - split; [reflexivity|]. split; [reflexivity|].
    destruct (classifyRings_two_rings square square_reversed)
      as (H1 & _); try discriminate.
    apply H1. right. split; reflexivity.
  - destruct (classifyRings_two_rings square square)
      as (_ & H2 & _); try discriminate.
    apply H2. right. split; reflexivity.
  - destruct (classifyRings_two_rings square square)
      as (_ & _ & _ & H4 & _); try discriminate.
    apply H4. simpl. lia.
Defined.

(** After [square], the ring [square_reversed] takes the hole branch and
    joins the polygon that [square] opened. *)
Lemma hole_branch_has_open_polygon_witness :
  cr_loop [square] (mkCr [] None None) = Return after_square /\
  takes_hole_branch after_square square_reversed /\
  exists p,
    polygon after_square = Some p /\
    cr_body after_square square_reversed =
      Return (mkCr (polygons after_square) (Some (p ++ [square_reversed]))
                   (ccw after_square)).
Proof.
  assert (Hloop : cr_loop [square] (mkCr [] None None) = Return after_square)
    by reflexivity.
  assert (Hhole : takes_hole_branch after_square square_reversed)
    by (split; [discriminate | reflexivity]).
  split; [exact Hloop|]. split; [exact Hhole|].
  exact (proj1 (hole_branch_has_open_polygon [square] square_reversed
                  after_square Hloop Hhole)).
Defined.

(** [one_point] serializes to a [Point], [two_rings] to a
    [MultiPolygon] of two groups. *)
Lemma geometry_type_selection_witness :
  (loadGeometry 1 one_point = Some (Return [[mkPoint 1 1]]) /\
   toGeoJSON 1 one_point 0 0 0 None =
     Some (Return
       (mkGeoJSON
          (mkGeometry (Some "Point"%string)
             (Pair (lngFromMercatorX
                      ((0 * IZR 4096 + IZR 1) / (IZR 4096 * Rpower 2 0))
                      None)
                   (latFromMercatorY
                      ((0 * IZR 4096 + IZR 1) / (IZR 4096 * Rpower 2 0))
                      None)))
          [] None)) /\
   exists coords cs,
     loadGeometry 1 one_point = Some (Return coords) /\
     projectCoords (IZR 4096 * Rpower 2 0) (IZR 4096 * 0) (IZR 4096 * 0)
                   1 None coords = Return cs /\
     List.length cs = 1%nat)
  /\
  (loadGeometry 6 two_rings = Some (Return [first_ring; second_ring]) /\
   classifyRings [first_ring; second_ring] =
     Return [[first_ring]; [second_ring]] /\
   exists c1 c2,
     toGeoJSON 6 two_rings 0 0 0 (Some unit_box) =
     Some (Return (mkGeoJSON
                     (mkGeometry (Some "MultiPolygon"%string)
                                 (Array [c1; c2]))
                     [] None))).
Proof.
  assert (Hp : loadGeometry 1 one_point = Some (Return [[mkPoint 1 1]]))
    by (vm_compute; reflexivity).
  assert (Hr : loadGeometry 6 two_rings =
               Some (Return [first_ring; second_ring]))
    by (vm_compute; reflexivity).
  assert (Hc : classifyRings [first_ring; second_ring] =
               Return [[first_ring]; [second_ring]])
    by (vm_compute; reflexivity).
  split.
  - destruct (geometry_type_selection 1 one_point 0 0 0 None)
      as (Ha & Hb & _).
    destruct (Hb (mkPoint 1 1) eq_refl Hp) as [_ Hg].
    split; [exact Hp|]. split; [exact Hg|].
    destruct (Ha _ Hg) as (coords & cs & Hl & Hpc & Hcase).
    exists coords, cs. split; [exact Hl|]. split; [exact Hpc|].
    destruct Hcase as [[Hcs _]|[_ [Habs _]]].
    + rewrite Hcs. reflexivity.
    + discriminate Habs.
  - destruct (geometry_type_selection 6 two_rings 0 0 0 (Some unit_box))
      as (_ & _ & Hm).
    split; [exact Hr|]. split; [exact Hc|].
    exact (Hm [first_ring; second_ring] [first_ring] [second_ring]
              eq_refl Hr Hc).
Defined.

(** The round trips at latitude and longitude 0, and at the centre of
    [unit_box]. *)
Lemma projection_round_trip_witness :
  (latFromMercatorY (mercatorYfromLat 0 None) None = 0%R /\
   lngFromMercatorX (mercatorXfromLng 0 None) None = 0%R)
  /\
  (latFromMercatorY (mercatorYfromLat 1 (Some unit_box)) (Some unit_box) = 1%R
   /\
   lngFromMercatorX (mercatorXfromLng 1 (Some unit_box)) (Some unit_box) = 1%R).
Proof.
  destruct projection_round_trip as [H1 H2]. split.
  - apply H1; split; lra.
  - apply H2; simpl; try split; lra.
Defined.

End Instances.

(* ================================================================== *)
(** * Two loops side by side, and sums along a loop                    *)
(* ================================================================== *)

Section LoopTools.

Variable St : Type.
Variable cond : St -> bool.
Variable body : St -> result St.
Variables mu delta : St -> nat.

Hypothesis body_adds : forall s s',
  body s = Return s' -> mu s' = (mu s + delta s)%nat.

(** A quantity that every iteration raises by [delta] ends as its initial
    value plus the sum of [delta] over the iterations. *)
Lemma while_accumulates (n : nat) :
  forall s0 sf,
    while cond body n s0 = Some (Return sf) ->
    mu sf = (mu s0 + list_sum (map delta (visited cond body n s0)))%nat.
Proof.
  induction n as [|n IH]; intros s0 sf Hw; simpl in *.
  - destruct (cond s0); [discriminate|]. inversion Hw; subst.
    simpl. lia.
  - destruct (cond s0).
    + destruct (body s0) as [s1|e] eqn:Hb; [|discriminate].
      simpl. rewrite (IH s1 sf Hw), (body_adds s0 s1 Hb). lia.
    + inversion Hw; subst. simpl. lia.
Qed.

End LoopTools.

Section Simulation.

Variables S T : Type.
Variable condS : S -> bool.
Variable bodyS : S -> result S.
Variable condT : T -> bool.
Variable bodyT : T -> result T.
Variable R : S -> T -> Prop.

Hypothesis cond_agrees : forall s t, R s t -> condS s = condT t.

Hypothesis returns_together : forall s t s',
  R s t -> bodyS s = Return s' ->
  exists t', bodyT t = Return t' /\ R s' t'.

Hypothesis throws_back : forall s t e,
  R s t -> bodyT t = Throw e -> bodyS s = Throw e \/ bodyS s = Throw TypeError.

Hypothesis returns_back : forall s t t',
  R s t -> bodyT t = Return t' ->
  (exists s', bodyS s = Return s' /\ R s' t') \/ bodyS s = Throw TypeError.

Hypothesis throws_forth : forall s t e,
  R s t -> bodyS s = Throw e -> e <> TypeError -> bodyT t = Throw e.

Lemma while_returns_together (n : nat) :
  forall s t sf,
    R s t -> while condS bodyS n s = Some (Return sf) ->
    exists tf, while condT bodyT n t = Some (Return tf) /\ R sf tf.
Proof.
  induction n as [|n IH]; intros s t sf Hr Hw; simpl in *;
    rewrite <- (cond_agrees s t Hr).
  - destruct (condS s); [discriminate|]. inversion Hw; subst.
    exists t. split; [reflexivity | exact Hr].
  - destruct (condS s).
    + destruct (bodyS s) as [s1|e] eqn:Hb; [|discriminate].
      destruct (returns_together s t s1 Hr Hb) as (t1 & Ht & Hr1).
      rewrite Ht. eapply IH; eassumption.
    + inversion Hw; subst. exists t. split; [reflexivity | exact Hr].
Qed.

Lemma while_throws_back (n : nat) :
  forall s t e,
    R s t -> while condT bodyT n t = Some (Throw e) ->
    while condS bodyS n s = Some (Throw e) \/
    while condS bodyS n s = Some (Throw TypeError).
Proof.
  induction n as [|n IH]; intros s t e Hr Hw; simpl in *;
    rewrite (cond_agrees s t Hr).
  - destruct (condT t); discriminate.
  - destruct (condT t); [|discriminate].
    destruct (bodyT t) as [t1|e1] eqn:Hb.
    + destruct (returns_back s t t1 Hr Hb) as [(s1 & Hs & Hr1)|Hs];
        rewrite Hs.
      * eapply IH; eassumption.
      * right. reflexivity.
    + inversion Hw; subst e1.
      destruct (throws_back s t e Hr Hb) as [Hs|Hs]; rewrite Hs; auto.
Qed.

Lemma while_throws_forth (n : nat) :
  forall s t e,
    R s t -> while condS bodyS n s = Some (Throw e) -> e <> TypeError ->
    while condT bodyT n t = Some (Throw e).
Proof.
  induction n as [|n IH]; intros s t e Hr Hw Hne; simpl in *;
    rewrite <- (cond_agrees s t Hr).
  - destruct (condS s); discriminate.
  - destruct (condS s); [|discriminate].
    destruct (bodyS s) as [s1|e1] eqn:Hb.
    + destruct (returns_together s t s1 Hr Hb) as (t1 & Ht & Hr1).
      rewrite Ht. eapply IH; eassumption.
    + inversion Hw; subst e1.
      rewrite (throws_forth s t e Hr Hb Hne). reflexivity.
Qed.

End Simulation.

(* ================================================================== *)
(** * What one iteration of a decoder does                             *)
(* ================================================================== *)

Section IterationFacts.

Import Pbf VectorTileFeature Derived.
Local Open Scope Z_scope.

(** The four ways in which an iteration of [loadGeometry] returns. *)
Lemma lg_body_cases (s s' : lg_state) :
  lg_body s = Return s' ->
  exists c, fetch (lg_cur s) = Return c /\
    ((c_cmd c = 1 /\ exists c',
        readDelta c = Return c' /\
        s' = mkLg c' (match line s with
                      | Some l => lines s ++ [l]
                      | None => lines s
                      end) (Some [mkPoint (c_x c') (c_y c')])) \/
     (c_cmd c = 2 /\ exists c' l,
        readDelta c = Return c' /\ line s = Some l /\
        s' = mkLg c' (lines s) (Some (l ++ [mkPoint (c_x c') (c_y c')]))) \/
     (c_cmd c = 7 /\ exists p0 l,
        line s = Some (p0 :: l) /\
        s' = mkLg c (lines s) (Some ((p0 :: l) ++ [p0]))) \/
     (c_cmd c = 7 /\ line s = None /\ s' = mkLg c (lines s) None)).
Proof.
  unfold lg_body. intros Hb.
  destruct (fetch (lg_cur s)) as [c|e]; simpl in Hb; [|discriminate].
  exists c. split; [reflexivity|]. unfold lg_exec in Hb.
  destruct (c_cmd c =? 1) eqn:H1; simpl in Hb.
  - left. apply Z.eqb_eq in H1. split; [exact H1|].
    destruct (readDelta c) as [c'|e]; simpl in Hb; [|discriminate].
    exists c'. split; [reflexivity|]. inversion Hb; reflexivity.
  - destruct (c_cmd c =? 2) eqn:H2.
    + right. left. apply Z.eqb_eq in H2. split; [exact H2|].
      destruct (readDelta c) as [c'|e]; simpl in Hb; [|discriminate].
      destruct (line s) as [l|]; [|discriminate].
      exists c', l. repeat split. inversion Hb; reflexivity.
    + destruct (c_cmd c =? 7) eqn:H7; [|discriminate].
      apply Z.eqb_eq in H7. right. right.
      destruct (line s) as [[|[x0 y0] l]|]; [discriminate | |].
      * left. split; [exact H7|]. exists (mkPoint x0 y0), l.
        split; [reflexivity|]. inversion Hb; reflexivity.
      * right. split; [exact H7|]. split; [reflexivity|].
        inversion Hb; reflexivity.
Qed.

(** The two ways in which an iteration of [bbox] returns. *)
Lemma bb_body_cases (t t' : bb_state) :
  bb_body t = Return t' ->
  exists c, fetch (bb_cur t) = Return c /\
    (((c_cmd c = 1 \/ c_cmd c = 2) /\ exists c',
        readDelta c = Return c' /\
        t' = mkBb c'
               (if ltb_bound (c_x c') (x1 t) then Finite (c_x c') else x1 t)
               (if gtb_bound (c_x c') (x2 t) then Finite (c_x c') else x2 t)
               (if ltb_bound (c_y c') (y1 t) then Finite (c_y c') else y1 t)
               (if gtb_bound (c_y c') (y2 t) then Finite (c_y c') else y2 t))
     \/
     (c_cmd c = 7 /\ t' = mkBb c (x1 t) (x2 t) (y1 t) (y2 t))).
Proof.
  unfold bb_body. intros Hb.
  destruct (fetch (bb_cur t)) as [c|e]; simpl in Hb; [|discriminate].
  exists c. split; [reflexivity|]. unfold bb_exec in Hb.
  destruct ((c_cmd c =? 1) || (c_cmd c =? 2)) eqn:H12.
  - left. split.
    + apply Bool.orb_true_iff in H12.
      destruct H12 as [H|H]; apply Z.eqb_eq in H; auto.
    + destruct (readDelta c) as [c'|e]; simpl in Hb; [|discriminate].
      exists c'. split; [reflexivity|]. inversion Hb; reflexivity.
  - right. destruct (c_cmd c =? 7) eqn:H7; simpl in Hb; [|discriminate].
    apply Z.eqb_eq in H7. split; [exact H7|]. inversion Hb; reflexivity.
Qed.

(** What [bbox] does to an extremum is what appending a number does to the
    least, respectively greatest, of a list. *)
Lemma least_snoc (zs : list Z) (z : Z) :
  least (zs ++ [z]) = if ltb_bound z (least zs) then Finite z else least zs.
Proof.
  destruct zs as [|a l]; simpl.
  - reflexivity.
  - rewrite fold_left_app. simpl.
    destruct (Z.ltb_spec z (fold_left Z.min l a)); f_equal; lia.
Qed.

Lemma greatest_snoc (zs : list Z) (z : Z) :
  greatest (zs ++ [z]) =
  if gtb_bound z (greatest zs) then Finite z else greatest zs.
Proof.
  destruct zs as [|a l]; simpl.
  - reflexivity.
  - rewrite fold_left_app. simpl. rewrite Z.gtb_ltb.
    destruct (Z.ltb_spec (fold_left Z.max l a) z); f_equal; lia.
Qed.

Lemma fold_min_le (l : list Z) :
  forall a z, In z (a :: l) -> fold_left Z.min l a <= z.
Proof.
  induction l as [|b l IH]; intros a z Hin; simpl in *.
  - destruct Hin as [->|[]]. lia.
  - destruct Hin as [->|[->|Hin]].
    + pose proof (IH (Z.min z b) (Z.min z b) (or_introl eq_refl)). lia.
    + pose proof (IH (Z.min a z) (Z.min a z) (or_introl eq_refl)). lia.
    + apply IH. right. exact Hin.
Qed.

Lemma fold_max_ge (l : list Z) :
  forall a z, In z (a :: l) -> z <= fold_left Z.max l a.
Proof.
  induction l as [|b l IH]; intros a z Hin; simpl in *.
  - destruct Hin as [->|[]]. lia.
  - destruct Hin as [->|[->|Hin]].
    + pose proof (IH (Z.max z b) (Z.max z b) (or_introl eq_refl)). lia.
    + pose proof (IH (Z.max a z) (Z.max a z) (or_introl eq_refl)). lia.
    + apply IH. right. exact Hin.
Qed.

Lemma least_again (zs : list Z) (z : Z) :
  In z zs -> least (zs ++ [z]) = least zs.
Proof.
  intros Hin. destruct zs as [|a l]; [contradiction|].
  simpl. rewrite fold_left_app. simpl.
  pose proof (fold_min_le l a z Hin). f_equal. lia.
Qed.

Lemma greatest_again (zs : list Z) (z : Z) :
  In z zs -> greatest (zs ++ [z]) = greatest zs.
Proof.
  intros Hin. destruct zs as [|a l]; [contradiction|].
  simpl. rewrite fold_left_app. simpl.
  pose proof (fold_max_ge l a z Hin). f_equal. lia.
Qed.

Lemma box_snoc (pts : list Point) (p : Point) (a b c d : bound) :
  [a; b; c; d] = box pts ->
  [if ltb_bound (px p) a then Finite (px p) else a;
   if ltb_bound (py p) b then Finite (py p) else b;
   if gtb_bound (px p) c then Finite (px p) else c;
   if gtb_bound (py p) d then Finite (py p) else d] = box (pts ++ [p]).
Proof.
  unfold box. intros H. inversion H; subst.
  rewrite !map_app. simpl.
  rewrite !least_snoc, !greatest_snoc. reflexivity.
Qed.

Lemma box_again (pts : list Point) (p : Point) :
  In p pts -> box (pts ++ [p]) = box pts.
Proof.
  intros Hin. unfold box. rewrite !map_app. simpl.
  rewrite !least_again, !greatest_again by (apply in_map; exact Hin).
  reflexivity.
Qed.

End IterationFacts.

(* ================================================================== *)
(** * The decoded geometry and its bounding box                        *)
(* ================================================================== *)

Section GeometryFacts.

Import Pbf VectorTileFeature Derived Examples.
Local Open Scope Z_scope.

Lemma lg_body_keeps_nonempty (s s' : lg_state) :
  rings_nonempty s -> lg_body s = Return s' -> rings_nonempty s'.
Proof.
  intros [Hls Hl] Hb.
  destruct (lg_body_cases s s' Hb) as (c & _ & Hcase).
  destruct Hcase as [(_ & c' & _ & ->)
                    |[(_ & c' & l & _ & Hline & ->)
                    |[(_ & p0 & l & Hline & ->)
                    |(_ & Hline & ->)]]]; split; simpl.
  - destruct (line s) as [l|]; [|exact Hls].
    apply Forall_app. split; [exact Hls|].
    constructor; [apply Hl; reflexivity | constructor].
  - intros l H. inversion H. discriminate.
  - exact Hls.
  - intros l0 H. inversion H. destruct l; discriminate.
  - exact Hls.
  - intros l0 H. inversion H. discriminate.
  - exact Hls.
  - intros l H. discriminate.
Qed.

Lemma lg_start_nonempty (f : VectorTileFeature) (s0 : lg_state) :
  lg_start f = Return s0 -> rings_nonempty s0.
Proof.
  unfold lg_start. destruct (start f) as [c|e]; simpl; intros H;
    [|discriminate].
  inversion H; subst. split; simpl; [constructor | discriminate].
Qed.

Lemma lg_finish_nonempty (s : lg_state) :
  rings_nonempty s -> Forall (fun l : list Point => l <> []) (lg_finish s).
Proof.
  intros [Hls Hl]. unfold lg_finish. destruct (line s) as [l|]; [|exact Hls].
  apply Forall_app. split; [exact Hls|].
  constructor; [apply Hl; reflexivity | constructor].
Qed.

(** What [loadGeometry] returns, read off its loop. *)
Lemma loadGeometry_returns_inv (n : nat) (f : VectorTileFeature)
    (ls : list (list Point)) :
  loadGeometry n f = Some (Return ls) ->
  exists s0 sf,
    lg_start f = Return s0 /\
    while lg_more lg_body n s0 = Some (Return sf) /\ ls = lg_finish sf.
Proof.
  unfold loadGeometry, run.
  destruct (lg_start f) as [s0|e] eqn:Hs; [|discriminate].
  destruct (while lg_more lg_body n s0) as [[sf|e]|] eqn:Hw;
    try discriminate.
  intros H. inversion H; subst. exists s0, sf. auto.
Qed.

Lemma loadGeometry_rings_nonempty (n : nat) (f : VectorTileFeature)
    (ls : list (list Point)) :
  loadGeometry n f = Some (Return ls) ->
  Forall (fun l : list Point => l <> []) ls.
Proof.
  intros H. destruct (loadGeometry_returns_inv n f ls H)
    as (s0 & sf & Hs & Hw & ->).
  apply lg_finish_nonempty.
  apply (while_invariant _ lg_more lg_body rings_nonempty) with n s0.
  - intros s s' Hi _ Hb. eapply lg_body_keeps_nonempty; eassumption.
  - eapply lg_start_nonempty; eassumption.
  - exact Hw.
Qed.

(** X1.  Every ring that [loadGeometry] returns has at least one point: a
    ring is created by a [MoveTo], which stores its point in it at once. *)
Theorem rings_are_nonempty (n : nat) (f : VectorTileFeature)
    (ls : list (list Point)) :
  loadGeometry n f = Some (Return ls) ->
  forall l, In l ls -> exists p rest, l = p :: rest.
Proof.
  intros H l Hin.
  pose proof (loadGeometry_rings_nonempty n f ls H) as Hall.
  rewrite Forall_forall in Hall. specialize (Hall l Hin).
  destruct l as [|p rest]; [contradiction|]. eauto.
Qed.

(** ** [bbox] against [loadGeometry] *)

Lemma lg_points_moveTo (s : lg_state) (c : cursor) (p : Point) :
  lg_points (mkLg c (match line s with
                     | Some l => lines s ++ [l]
                     | None => lines s
                     end) (Some [p])) = lg_points s ++ [p].
Proof.
  unfold lg_points. simpl. destruct (line s) as [l|].
  - rewrite concat_app. simpl. rewrite app_nil_r. reflexivity.
  - rewrite app_nil_r. reflexivity.
Qed.

Lemma in_step_returns (s : lg_state) (t : bb_state) (s' : lg_state) :
  in_step s t -> lg_body s = Return s' ->
  exists t', bb_body t = Return t' /\ in_step s' t'.
Proof.
  intros (Hcur & Hne & Hbox) Hb.
  pose proof (lg_body_keeps_nonempty s s' Hne Hb) as Hne'.
  destruct (lg_body_cases s s' Hb) as (c & Hf & Hcase).
  unfold bb_body. rewrite <- Hcur, Hf. simpl. unfold bb_exec.
  destruct Hcase as [(Hc & c' & Hd & Hs')
                    |[(Hc & c' & l & Hd & Hline & Hs')
                    |[(Hc & p0 & l & Hline & Hs')
                    |(Hc & Hline & Hs')]]]; rewrite Hc; simpl.
  - rewrite Hd. simpl. eexists. split; [reflexivity|].
    split; [subst s'; reflexivity|]. split; [exact Hne'|]. simpl.
    subst s'. rewrite lg_points_moveTo.
    apply (box_snoc (lg_points s) (mkPoint (c_x c') (c_y c'))). exact Hbox.
  - rewrite Hd. simpl. eexists. split; [reflexivity|].
    split; [subst s'; reflexivity|]. split; [exact Hne'|]. simpl.
    subst s'. unfold lg_points at 1. simpl. rewrite app_assoc.
    replace (List.concat (lines s) ++ l) with (lg_points s)
      by (unfold lg_points; rewrite Hline; reflexivity).
    apply (box_snoc (lg_points s) (mkPoint (c_x c') (c_y c'))). exact Hbox.
  - eexists. split; [reflexivity|].
    split; [subst s'; reflexivity|]. split; [exact Hne'|]. simpl.
    subst s'. unfold lg_points at 1. simpl.
    replace (List.concat (lines s) ++ p0 :: l ++ [p0])
      with (lg_points s ++ [p0])
      by (unfold lg_points; rewrite Hline, <- app_assoc; reflexivity).
    rewrite box_again; [exact Hbox|].
    unfold lg_points. rewrite Hline. apply in_or_app. right. left.
    reflexivity.
  - eexists. split; [reflexivity|].
    split; [subst s'; reflexivity|]. split; [exact Hne'|]. simpl.
    subst s'. unfold lg_points in *. simpl. rewrite Hline in Hbox.
    exact Hbox.
Qed.

Lemma in_step_throws_back (s : lg_state) (t : bb_state) (e : error) :
  in_step s t -> bb_body t = Throw e ->
  lg_body s = Throw e \/ lg_body s = Throw TypeError.
Proof.
  intros (Hcur & _ & _). unfold bb_body, lg_body. rewrite <- Hcur.
  destruct (fetch (lg_cur s)) as [c|e0]; simpl; [|intros H; inversion H; auto].
  unfold bb_exec, lg_exec.
  destruct ((c_cmd c =? 1) || (c_cmd c =? 2)).
  - destruct (readDelta c) as [c'|e0]; simpl; [discriminate | intros H; inversion H; auto].
  - destruct (c_cmd c =? 7); simpl; [discriminate | intros H; inversion H; auto].
Qed.

Lemma in_step_returns_back (s : lg_state) (t t' : bb_state) :
  in_step s t -> bb_body t = Return t' ->
  (exists s', lg_body s = Return s' /\ in_step s' t') \/
  lg_body s = Throw TypeError.
Proof.
  intros Hstep Hb. destruct (lg_body s) as [s'|e] eqn:Hs.
  - left. exists s'. split; [reflexivity|].
    destruct (in_step_returns s t s' Hstep Hs) as (t1 & Ht1 & Hstep').
    rewrite Hb in Ht1. inversion Ht1; subst. exact Hstep'.
  - right. f_equal. destruct Hstep as (Hcur & _ & _).
    unfold bb_body, lg_body in *. rewrite <- Hcur in Hb.
    destruct (fetch (lg_cur s)) as [c|e0]; simpl in *; [|discriminate].
    unfold bb_exec, lg_exec in *.
    destruct ((c_cmd c =? 1) || (c_cmd c =? 2)).
    + destruct (readDelta c) as [c'|e0]; simpl in *; [|discriminate].
      destruct (c_cmd c =? 1); [discriminate|].
      destruct (line s); [discriminate|]. inversion Hs; reflexivity.
    + destruct (c_cmd c =? 7); simpl in *; [|discriminate].
      destruct (line s) as [[|p0 l]|]; try discriminate.
      inversion Hs; reflexivity.
Qed.

Lemma in_step_throws_forth (s : lg_state) (t : bb_state) (e : error) :
  in_step s t -> lg_body s = Throw e -> e <> TypeError ->
  bb_body t = Throw e.
Proof.
  intros (Hcur & _ & _). unfold bb_body, lg_body. rewrite <- Hcur.
  destruct (fetch (lg_cur s)) as [c|e0]; simpl; [|intros H _; inversion H; reflexivity].
  unfold bb_exec, lg_exec.
  destruct ((c_cmd c =? 1) || (c_cmd c =? 2)).
  - destruct (readDelta c) as [c'|e0]; simpl; [|intros H _; inversion H; reflexivity].
    destruct (c_cmd c =? 1); [discriminate|].
    destruct (line s); [discriminate|].
    intros H Hne. inversion H; subst. contradiction.
  - destruct (c_cmd c =? 7); simpl; [|intros H _; inversion H; reflexivity].
    destruct (line s) as [[|p0 l]|]; try discriminate.
    intros H Hne. inversion H; subst. contradiction.
Qed.

Lemma in_step_more (s : lg_state) (t : bb_state) :
  in_step s t -> lg_more s = bb_more t.
Proof. intros (Hcur & _). unfold lg_more, bb_more. rewrite Hcur. reflexivity. Qed.

(** The two decoders start in step, or fail to start alike. *)
Lemma starts_in_step (f : VectorTileFeature) :
  (exists s0 t0,
     lg_start f = Return s0 /\ bb_start f = Return t0 /\ in_step s0 t0) \/
  (exists e, lg_start f = Throw e /\ bb_start f = Throw e).
Proof.
  unfold lg_start, bb_start. destruct (start f) as [c|e]; simpl.
  - left. eexists; eexists. split; [reflexivity|]. split; [reflexivity|].
    split; [reflexivity|]. split; [|reflexivity].
    split; simpl; [constructor | discriminate].
  - right. exists e. auto.
Qed.

Lemma concat_lg_finish (s : lg_state) :
  List.concat (lg_finish s) = lg_points s.
Proof.
  unfold lg_finish, lg_points. destruct (line s) as [l|].
  - rewrite concat_app. simpl. rewrite app_nil_r. reflexivity.
  - rewrite app_nil_r. reflexivity.
Qed.

(** X2.  Whenever [loadGeometry] returns, [bbox] returns too, and what it
    returns is the bounding box [[minX, minY, maxX, maxY]] of the points of
    the decoded rings, with [Infinity] and [-Infinity] when there is no
    point. *)
Theorem bbox_is_box_of_geometry (n : nat) (f : VectorTileFeature)
    (ls : list (list Point)) :
  loadGeometry n f = Some (Return ls) ->
  bbox n f = Some (Return (box (List.concat ls))).
Proof.
  intros H. destruct (loadGeometry_returns_inv n f ls H)
    as (s0 & sf & Hs & Hw & ->).
  destruct (starts_in_step f) as [(s0' & t0 & Hs0 & Ht0 & Hstep)|(e & He & _)];
    [|congruence].
  rewrite Hs in Hs0. inversion Hs0; subst s0'.
  destruct (while_returns_together _ _ lg_more lg_body bb_more bb_body
              in_step in_step_more in_step_returns n s0 t0 sf Hstep Hw)
    as (tf & Htf & (_ & _ & Hbox)).
  unfold bbox, run. rewrite Ht0, Htf. unfold bb_finish.
  rewrite Hbox, concat_lg_finish. reflexivity.
Qed.

(** X3.  The two decoders fail together, but for the type error.  Where
    [bbox] throws, [loadGeometry] throws the same error or its type error;
    where [loadGeometry] throws another error than its type error, [bbox]
    throws that error. *)
Theorem decoders_fail_together (n : nat) (f : VectorTileFeature) (e : error) :
  (bbox n f = Some (Throw e) ->
   loadGeometry n f = Some (Throw e) \/
   loadGeometry n f = Some (Throw TypeError))
  /\
  (loadGeometry n f = Some (Throw e) -> e <> TypeError ->
   bbox n f = Some (Throw e)).
Proof.
  unfold bbox, loadGeometry, run.
  destruct (starts_in_step f) as [(s0 & t0 & Hs0 & Ht0 & Hstep)|(e0 & Hl & Hb)].
  - rewrite Hs0, Ht0. split.
    + intros H.
      destruct (while bb_more bb_body n t0) as [[tf|e1]|] eqn:Hw;
        try discriminate.
      inversion H; subst e1.
      destruct (while_throws_back _ _ lg_more lg_body bb_more bb_body
                  in_step in_step_more in_step_throws_back
                  in_step_returns_back n s0 t0 e Hstep Hw) as [Hr|Hr];
        rewrite Hr; auto.
    + intros H Hne.
      destruct (while lg_more lg_body n s0) as [[sf|e1]|] eqn:Hw;
        try discriminate.
      inversion H; subst e1.
      rewrite (while_throws_forth _ _ lg_more lg_body bb_more bb_body
                 in_step in_step_more in_step_returns
                 in_step_throws_forth n s0 t0 e Hstep Hw Hne).
      reflexivity.
  - rewrite Hl, Hb. split; intros H; inversion H; subst; auto.
Qed.

(** ** Rings and [MoveTo] commands *)

Lemma lg_body_counts_rings (s s' : lg_state) :
  lg_body s = Return s' ->
  rings_so_far s' = (rings_so_far s + is_moveTo s)%nat.
Proof.
  intros Hb. destruct (lg_body_cases s s' Hb) as (c & Hf & Hcase).
  unfold is_moveTo, command_at. rewrite Hf. unfold rings_so_far.
  destruct Hcase as [(Hc & c' & _ & ->)
                    |[(Hc & c' & l & _ & Hline & ->)
                    |[(Hc & p0 & l & Hline & ->)
                    |(Hc & Hline & ->)]]]; rewrite Hc; simpl.
  - destruct (line s); [rewrite length_app; simpl|]; lia.
  - rewrite Hline. lia.
  - rewrite Hline. lia.
  - rewrite Hline. lia.
Qed.

Lemma count_moveTo (l : list lg_state) :
  list_sum (map is_moveTo l) =
  count_occ option_eq_dec_Z (map (fun s => command_at (lg_cur s)) l)
            (Some 1).
Proof.
  induction l as [|s l IH]; simpl.
  - reflexivity.
  - rewrite IH. unfold is_moveTo.
    destruct (option_eq_dec_Z (command_at (lg_cur s)) (Some 1)); reflexivity.
Qed.

(** X4.  [loadGeometry] returns as many rings as it executed [MoveTo]
    commands: neither [LineTo] nor [ClosePath] begins or ends a ring. *)
Theorem one_ring_per_moveTo (n : nat) (f : VectorTileFeature)
    (ls : list (list Point)) :
  loadGeometry n f = Some (Return ls) ->
  List.length ls = count_occ option_eq_dec_Z (lg_commands n f) (Some 1).
Proof.
  intros H. destruct (loadGeometry_returns_inv n f ls H)
    as (s0 & sf & Hs & Hw & ->).
  pose proof (while_accumulates _ lg_more lg_body rings_so_far is_moveTo
                lg_body_counts_rings n s0 sf Hw) as Hacc.
  unfold lg_commands, lg_visited. rewrite Hs, <- count_moveTo.
  assert (H0 : rings_so_far s0 = 0%nat).
  { unfold lg_start in Hs. destruct (start f); simpl in Hs; [|discriminate].
    inversion Hs; reflexivity. }
  rewrite H0 in Hacc. simpl in Hacc. rewrite <- Hacc.
  unfold lg_finish, rings_so_far. destruct (line sf).
  - rewrite length_app. reflexivity.
  - lia.
Qed.

End GeometryFacts.

(* ================================================================== *)
(** * Signed areas                                                     *)
(* ================================================================== *)

Section AreaFacts.

Import VectorTileFeature Derived.
Local Open Scope Z_scope.

Lemma edge_swap (p q : Point) : edge p q = - edge q p.
Proof. unfold edge. ring. Qed.

Lemma signedAreaLoop_path (ring : list Point) :
  forall rest pre prev sum,
    ring = pre ++ prev :: rest ->
    signedAreaLoop ring (List.length rest) (S (List.length pre))
                   (List.length pre) sum =
    sum + path prev rest.
Proof.
  induction rest as [|p rest IH]; intros pre prev sum Hring; simpl.
  - lia.
  - assert (H1 : nth (S (List.length pre)) ring origin = p).
    { rewrite Hring.
      replace (pre ++ prev :: p :: rest) with ((pre ++ [prev]) ++ p :: rest)
        by (rewrite <- app_assoc; reflexivity).
      replace (S (List.length pre)) with (List.length (pre ++ [prev]))
        by (rewrite length_app; simpl; lia).
      apply nth_middle. }
    assert (H2 : nth (List.length pre) ring origin = prev)
      by (rewrite Hring; apply nth_middle).
    rewrite H1, H2.
    replace (S (List.length pre)) with (List.length (pre ++ [prev]))
      by (rewrite length_app; simpl; lia).
    rewrite (IH (pre ++ [prev]) p).
    + unfold edge. lia.
    + rewrite Hring, <- app_assoc. reflexivity.
Qed.

Lemma nth_length_last (l : list Point) (a d : Point) :
  nth (List.length l) (a :: l) d = last (a :: l) d.
Proof.
  revert a. induction l as [|b l IH]; intros a.
  - reflexivity.
  - change (nth (List.length l) (b :: l) d = last (b :: l) d). apply IH.
Qed.

(** [signedArea] is the sum of [edge] over the consecutive pairs of the
    ring, plus the edge that closes it. *)
Lemma signedArea_closed (ring : list Point) :
  signedArea ring =
  edge (hd origin ring) (last ring origin) + path (hd origin ring) (tl ring).
Proof.
  destruct ring as [|a l].
  - reflexivity.
  - unfold signedArea. cbn [List.length signedAreaLoop hd tl].
    replace (S (List.length l) - 1)%nat with (List.length l) by lia.
    rewrite nth_length_last.
    change (nth 0 (a :: l) origin) with a.
    rewrite (signedAreaLoop_path (a :: l) l [] a); [|reflexivity].
    unfold edge. lia.
Qed.

Lemma last_cons_default (l : list Point) :
  forall a d, last (a :: l) d = last l a.
Proof.
  induction l as [|b l IH]; intros a d.
  - reflexivity.
  - change (last (a :: b :: l) d) with (last (b :: l) d).
    rewrite (IH b d), (IH b a). reflexivity.
Qed.

Lemma path_snoc (l : list Point) :
  forall prev x, path prev (l ++ [x]) = path prev l + edge x (last l prev).
Proof.
  induction l as [|p l IH]; intros prev x.
  - simpl. lia.
  - change ((p :: l) ++ [x]) with (p :: (l ++ [x])). cbn [path].
    rewrite IH, (last_cons_default l p prev). lia.
Qed.

Lemma path_rev (l : list Point) :
  path (hd origin (rev l)) (tl (rev l)) = - path (hd origin l) (tl l).
Proof.
  induction l as [|a l IH].
  - reflexivity.
  - cbn [hd tl]. destruct l as [|b l].
    + reflexivity.
    + cbn [hd tl path] in *.
      change (rev (a :: b :: l)) with (rev (b :: l) ++ [a]).
      destruct (rev (b :: l)) as [|c m] eqn:Hrev.
      * apply (f_equal (@List.length Point)) in Hrev.
        rewrite length_rev in Hrev. discriminate.
      * cbn [app hd tl] in *. rewrite path_snoc, IH.
        assert (Hlast : last m c = b).
        { rewrite <- (last_cons_default m c origin), <- Hrev.
          change (rev (b :: l)) with (rev l ++ [b]). apply last_last. }
        rewrite Hlast, (edge_swap a b). lia.
Qed.

Lemma hd_rev (l : list Point) : hd origin (rev l) = last l origin.
Proof.
  induction l as [|a l IH]; [reflexivity|].
  simpl rev. destruct (rev l) as [|c m] eqn:Hrev.
  - apply (f_equal (@rev Point)) in Hrev. rewrite rev_involutive in Hrev.
    subst l. reflexivity.
  - simpl. simpl in IH. rewrite IH. destruct l; [discriminate|reflexivity].
Qed.

Lemma last_rev (l : list Point) : last (rev l) origin = hd origin l.
Proof.
  destruct l as [|a l]; [reflexivity|]. simpl. apply last_last.
Qed.

Lemma signedArea_rev (ring : list Point) :
  signedArea (rev ring) = - signedArea ring.
Proof.
  rewrite !signedArea_closed, path_rev, hd_rev, last_rev.
  rewrite (edge_swap (last ring origin)). lia.
Qed.

(** X5.  Reversing a ring negates its signed area: the sign tells the
    winding. *)
Theorem reversal_negates_area (ring : list Point) :
  signedArea (rev ring) = - signedArea ring.
Proof.
  rewrite !signedArea_closed, path_rev, hd_rev, last_rev.
  rewrite (edge_swap (last ring origin)). lia.
Qed.

Lemma path_shift (dx dy : Z) (l : list Point) :
  forall prev,
    path (mkPoint (px prev + dx) (py prev + dy)) (shift dx dy l) =
    path prev l + 2 * dy * (px prev - px (last l prev)).
Proof.
  induction l as [|p l IH]; intros prev.
  - simpl. lia.
  - change (shift dx dy (p :: l))
      with (mkPoint (px p + dx) (py p + dy) :: shift dx dy l).
    cbn [path]. rewrite IH, (last_cons_default l p prev).
    unfold edge. cbn [px py]. lia.
Qed.

Lemma last_shift (dx dy : Z) (l : list Point) :
  forall d,
    last (shift dx dy l) (mkPoint (px d + dx) (py d + dy)) =
    mkPoint (px (last l d) + dx) (py (last l d) + dy).
Proof.
  induction l as [|p l IH]; intros d.
  - reflexivity.
  - destruct l as [|q l]; [reflexivity|].
    change (last (shift dx dy (p :: q :: l)) (mkPoint (px d + dx) (py d + dy)))
      with (last (shift dx dy (q :: l)) (mkPoint (px d + dx) (py d + dy))).
    rewrite IH. reflexivity.
Qed.

(** X6.  The signed area of a ring does not depend on where the ring lies:
    shifting every point by the same [(dx, dy)] leaves it unchanged. *)
Theorem shift_keeps_area (dx dy : Z) (ring : list Point) :
  signedArea (shift dx dy ring) = signedArea ring.
Proof.
  rewrite !signedArea_closed. destruct ring as [|a l].
  - reflexivity.
  - change (shift dx dy (a :: l))
      with (mkPoint (px a + dx) (py a + dy) :: shift dx dy l).
    cbn [hd tl]. rewrite path_shift.
    rewrite !(last_cons_default _ _ origin), last_shift.
    unfold edge. cbn [px py]. lia.
Qed.

End AreaFacts.

(* ================================================================== *)
(** * What [classifyRings] keeps                                       *)
(* ================================================================== *)

Section GroupingFacts.

Import VectorTileFeature Derived.
Local Open Scope Z_scope.

Lemma concat_cr_finish (s : cr_state) :
  List.concat (cr_finish s) =
  List.concat (polygons s) ++ match polygon s with
                              | Some p => p
                              | None => []
                              end.
Proof.
  unfold cr_finish. destruct (polygon s) as [p|].
  - rewrite concat_app. simpl. rewrite app_nil_r. reflexivity.
  - rewrite app_nil_r. reflexivity.
Qed.

Lemma cr_body_keeps_rings (s s' : cr_state) (ring : list Point) :
  cr_body s ring = Return s' ->
  List.concat (cr_finish s') =
  List.concat (cr_finish s) ++
  (if signedArea ring =? 0 then [] else [ring]).
Proof.
  unfold cr_body. rewrite !concat_cr_finish.
  destruct (signedArea ring =? 0).
  - intros H. inversion H; subst. rewrite app_nil_r. reflexivity.
  - destruct (Bool.eqb _ _).
    + intros H. inversion H; subst. simpl.
      destruct (polygon s) as [p|].
      * rewrite concat_app. simpl. rewrite app_nil_r. reflexivity.
      * rewrite app_nil_r. reflexivity.
    + destruct (polygon s) as [p|]; [|discriminate].
      intros H. inversion H; subst. simpl. rewrite app_assoc. reflexivity.
Qed.

Lemma cr_loop_keeps_rings (rings : list (list Point)) :
  forall s s',
    cr_loop rings s = Return s' ->
    List.concat (cr_finish s') =
    List.concat (cr_finish s) ++
    filter (fun r => negb (signedArea r =? 0)) rings.
Proof.
  induction rings as [|r rings IH]; intros s s' H; simpl in *.
  - inversion H; subst. rewrite app_nil_r. reflexivity.
  - destruct (cr_body s r) as [s1|e] eqn:Hb; simpl in H; [|discriminate].
    rewrite (IH s1 s' H), (cr_body_keeps_rings s s1 r Hb).
    rewrite <- app_assoc. destruct (signedArea r =? 0); reflexivity.
Qed.

(** X7.  [classifyRings] always returns, and the rings of the polygons it
    returns, read in order, are the rings it was given, in their order,
    less those of signed area zero when it was given two rings or more: no
    ring of non-zero area is lost, repeated or moved. *)
Theorem classifyRings_keeps_rings (rings : list (list Point)) :
  exists polys,
    classifyRings rings = Return polys /\
    List.concat polys =
    if (List.length rings <=? 1)%nat then rings
    else filter (fun r => negb (signedArea r =? 0)) rings.
Proof.
  unfold classifyRings. destruct (List.length rings <=? 1)%nat.
  - eexists. split; [reflexivity|]. simpl. apply app_nil_r.
  - destruct (cr_loop_returns rings _ cr_start_inv) as (s' & Hs' & _).
    rewrite Hs'. simpl. eexists. split; [reflexivity|].
    rewrite (cr_loop_keeps_rings rings _ s' Hs'). reflexivity.
Qed.

Lemma cr_body_keeps_grouped (s s' : cr_state) (ring : list Point) :
  cr_grouped s -> cr_body s ring = Return s' -> cr_grouped s'.
Proof.
  unfold cr_body. intros Hg.
  destruct (signedArea ring =? 0) eqn:Hz.
  - intros H. inversion H; subst. exact Hg.
  - apply Z.eqb_neq in Hz.
    destruct Hg as [(Hc & Hp & Hps)|(ref & p & Hc & Hp & Hgp & Hall)];
      rewrite Hc, Hp.
    + rewrite Bool.eqb_reflx. intros H. inversion H; subst.
      right. exists (signedArea ring <? 0), [ring]. simpl.
      split; [reflexivity|]. split; [reflexivity|]. split.
      * exists ring, []. repeat split; auto.
      * rewrite Hps. constructor.
    + destruct (Bool.eqb ref (signedArea ring <? 0)) eqn:He.
      * apply Bool.eqb_prop in He. intros H. inversion H; subst.
        right. exists (signedArea ring <? 0), [ring]. simpl.
        split; [reflexivity|]. split; [reflexivity|]. split.
        -- exists ring, []. repeat split; auto.
        -- apply Forall_app. split; [exact Hall|].
           constructor; [exact Hgp | constructor].
      * apply Bool.eqb_false_iff in He. intros H. inversion H; subst.
        right. exists ref, (p ++ [ring]). simpl.
        split; [reflexivity|]. split; [reflexivity|]. split; [|exact Hall].
        destruct Hgp as (ext & holes & -> & Hne & Hw & Hholes).
        exists ext, (holes ++ [ring]). split; [reflexivity|].
        split; [exact Hne|]. split; [exact Hw|].
        apply Forall_app. split; [exact Hholes|].
        constructor; [|constructor]. split; [exact Hz|].
        destruct ref, (signedArea ring <? 0); simpl; congruence.
Qed.

Lemma cr_loop_keeps_grouped (rings : list (list Point)) :
  forall s s', cr_grouped s -> cr_loop rings s = Return s' -> cr_grouped s'.
Proof.
  induction rings as [|r rings IH]; intros s s' Hg H; simpl in *.
  - inversion H; subst. exact Hg.
  - destruct (cr_body s r) as [s1|e] eqn:Hb; simpl in H; [|discriminate].
    eapply IH; [|exact H]. eapply cr_body_keeps_grouped; eassumption.
Qed.

(** X8.  Given two rings or more, [classifyRings] returns polygons that all
    begin with a ring of non-zero signed area wound the same way, the
    exterior, and continue with rings of non-zero signed area wound the
    other way, the holes. *)
Theorem classifyRings_groups (rings : list (list Point))
    (polys : list (list (list Point))) :
  (2 <= List.length rings)%nat ->
  classifyRings rings = Return polys ->
  exists ref,
    forall poly, In poly polys ->
      exists ext holes,
        poly = ext :: holes /\
        signedArea ext <> 0 /\ (signedArea ext <? 0) = ref /\
        forall h, In h holes ->
          signedArea h <> 0 /\ (signedArea h <? 0) = negb ref.
Proof.
  intros Hlen. unfold classifyRings.
  replace (List.length rings <=? 1)%nat with false
    by (symmetry; apply Nat.leb_gt; lia).
  destruct (cr_loop rings (mkCr [] None None)) as [s|e] eqn:Hl; simpl;
    [|discriminate].
  intros H. inversion H; subst polys.
  assert (Hg : cr_grouped s).
  { eapply cr_loop_keeps_grouped; [|exact Hl]. left. auto. }
  unfold cr_finish.
  destruct Hg as [(_ & Hp & Hps)|(ref & p & _ & Hp & Hgp & Hall)];
    rewrite Hp.
  - exists true. rewrite Hps. intros poly [].
  - exists ref. intros poly Hin. apply in_app_or in Hin.
    assert (Hgr : grouped ref poly).
    { destruct Hin as [Hin|[<-|[]]]; [|exact Hgp].
      rewrite Forall_forall in Hall. apply Hall. exact Hin. }
    destruct Hgr as (ext & holes & -> & Hne & Hw & Hholes).
    exists ext, holes. repeat split; auto;
      rewrite Forall_forall in Hholes; apply Hholes; assumption.
Qed.

(** Reversing every ring turns a state of the classifier into its
    reversed state. *)
Lemma cr_body_reversed (s : cr_state) (ring : list Point) :
  cr_body (reversed s) (rev ring) =
  match cr_body s ring with
  | Return s' => Return (reversed s')
  | Throw e => Throw e
  end.
Proof.
  unfold cr_body. rewrite signedArea_rev.
  destruct (Z.eqb_spec (signedArea ring) 0) as [Hz|Hz].
  - rewrite Hz. reflexivity.
  - replace (- signedArea ring =? 0) with false
      by (symmetry; apply Z.eqb_neq; lia).
    assert (Hflip : (- signedArea ring <? 0) = negb (signedArea ring <? 0)).
    { destruct (Z.ltb_spec (- signedArea ring) 0),
               (Z.ltb_spec (signedArea ring) 0); simpl; try reflexivity; lia. }
    rewrite Hflip. unfold reversed at 1 2. simpl.
    destruct (ccw s) as [b|]; simpl.
    + replace (Bool.eqb (negb b) (negb (signedArea ring <? 0)))
        with (Bool.eqb b (signedArea ring <? 0))
        by (destruct b, (signedArea ring <? 0); reflexivity).
      destruct (Bool.eqb b (signedArea ring <? 0)).
      * unfold reversed. simpl. destruct (polygon s) as [p|]; simpl;
          [rewrite map_app|]; reflexivity.
      * destruct (polygon s) as [p|]; simpl; [|reflexivity].
        unfold reversed. simpl. rewrite map_app. reflexivity.
    + rewrite !Bool.eqb_reflx. unfold reversed. simpl.
      destruct (polygon s) as [p|]; simpl; [rewrite map_app|]; reflexivity.
Qed.

Lemma cr_loop_reversed (rings : list (list Point)) :
  forall s,
    cr_loop (map (@rev Point) rings) (reversed s) =
    match cr_loop rings s with
    | Return s' => Return (reversed s')
    | Throw e => Throw e
    end.
Proof.
  induction rings as [|r rings IH]; intros s; simpl.
  - reflexivity.
  - rewrite cr_body_reversed. destruct (cr_body s r) as [s1|e]; simpl.
    + apply IH.
    + reflexivity.
Qed.

(** X9.  [classifyRings] looks at the winding of a ring only relative to
    the first one: given every ring reversed, it returns the same polygons
    with every ring reversed. *)
Theorem classifyRings_of_reversed (rings : list (list Point)) :
  exists polys,
    classifyRings rings = Return polys /\
    classifyRings (map (@rev Point) rings) =
    Return (map (map (@rev Point)) polys).
Proof.
  unfold classifyRings. rewrite length_map.
  destruct (List.length rings <=? 1)%nat.
  - eexists. split; reflexivity.
  - pose proof (cr_loop_reversed rings (mkCr [] None None)) as Hrev.
    change (reversed (mkCr [] None None)) with (mkCr [] None None) in Hrev.
    rewrite Hrev.
    destruct (cr_loop_returns rings _ cr_start_inv) as (s' & Hs' & _).
    rewrite Hs'. simpl. eexists. split; [reflexivity|].
    unfold cr_finish, reversed. simpl. destruct (polygon s') as [p|]; simpl.
    + rewrite map_app. reflexivity.
    + reflexivity.
Qed.

End GroupingFacts.

(* ================================================================== *)
(** * What [toGeoJSON] emits                                           *)
(* ================================================================== *)

Section EmissionFacts.

Import Pbf VectorTileFeature Derived Mercator.

Lemma mapM_returns (A B : Type) (h : A -> B) (l : list A) :
  mapM (fun a => Return (h a)) l = Return (map h l).
Proof.
  induction l as [|a l IH]; simpl; [|rewrite IH]; reflexivity.
Qed.

Lemma mapM_ext (A B : Type) (f g : A -> result B) (l : list A) :
  (forall a, f a = g a) -> mapM f l = mapM g l.
Proof.
  intros H. induction l as [|a l IH]; simpl; [|rewrite H, IH]; reflexivity.
Qed.

(** The default projection of a line of decoded points. *)
Lemma project_default (extent : Z) (x y z : R) (line : list Point) :
  project (IZR extent * Rpower 2 z) (IZR extent * x) (IZR extent * y) None
          (map Some line) =
  Return (map (lngLatOf extent x y z) line).
Proof.
  unfold project.
  rewrite (mercatorProject_composes (IZR extent * Rpower 2 z) x y
             (IZR extent) line).
  reflexivity.
Qed.

Lemma project_lines_default (extent : Z) (x y z : R)
    (ls : list (list Point)) :
  mapM (fun l => project (IZR extent * Rpower 2 z) (IZR extent * x)
                         (IZR extent * y) None (map Some l)) ls =
  Return (map (map (lngLatOf extent x y z)) ls).
Proof.
  rewrite (mapM_ext _ _ _
             (fun l => Return (map (lngLatOf extent x y z) l))).
  - apply mapM_returns.
  - intros l. apply project_default.
Qed.

Lemma heads_of_nonempty (ls : list (list Point)) :
  Forall (fun l : list Point => l <> []) ls ->
  map (@hd_error Point) ls = map Some (map (hd origin) ls).
Proof.
  induction 1 as [|l ls Hl _ IH]; simpl.
  - reflexivity.
  - rewrite IH. destruct l; [contradiction | reflexivity].
Qed.

Lemma project_polygons_returns (size x0 y0 : R)
    (bounds : option LngLatBounds) (polys : list (list (list Point))) :
  exists ps,
    mapM (fun poly =>
            rs <- mapM (fun l => project size x0 y0 bounds (map Some l))
                       poly ;;
            Return (Array (map Array rs))) polys = Return ps.
Proof.
  induction polys as [|poly polys [ps IH]]; simpl.
  - eexists; reflexivity.
  - destruct (project_rings_returns size x0 y0 bounds poly) as [rs Hrs].
    rewrite Hrs. simpl. rewrite IH. simpl. eexists; reflexivity.
Qed.

(** X10.  [toGeoJSON] fails only where [loadGeometry] fails: when
    [loadGeometry] returns, [toGeoJSON] returns a feature that carries the
    properties and the identifier of the feature unchanged, whatever the
    type of the feature and the projection; when [loadGeometry] throws,
    [toGeoJSON] throws the same error. *)
Theorem toGeoJSON_fails_with_loadGeometry (n : nat) (f : VectorTileFeature)
    (x y z : R) (bounds : option LngLatBounds) :
  (forall ls,
     loadGeometry n f = Some (Return ls) ->
     exists g,
       toGeoJSON n f x y z bounds =
         Some (Return (mkGeoJSON g (properties f) (id f))))
  /\
  (forall e,
     loadGeometry n f = Some (Throw e) ->
     toGeoJSON n f x y z bounds = Some (Throw e)).
Proof.
  split.
  - intros ls Hl. unfold toGeoJSON. rewrite Hl. simpl.
    assert (Hp : exists cs,
               projectCoords (IZR (extent f) * Rpower 2 z)
                 (IZR (extent f) * x) (IZR (extent f) * y) (type f) bounds ls =
               Return cs).
    { unfold projectCoords.
      destruct (type f =? 1)%Z.
      - rewrite (heads_of_nonempty ls (loadGeometry_rings_nonempty n f ls Hl)).
        apply project_returns.
      - destruct (type f =? 2)%Z.
        + destruct (project_rings_returns (IZR (extent f) * Rpower 2 z)
                      (IZR (extent f) * x) (IZR (extent f) * y) bounds ls)
            as [rs Hrs].
          rewrite Hrs. simpl. eexists; reflexivity.
        + destruct (type f =? 3)%Z; [|eexists; reflexivity].
          unfold classifyRings.
          destruct (List.length ls <=? 1)%nat; simpl.
          * destruct (project_polygons_returns (IZR (extent f) * Rpower 2 z)
                        (IZR (extent f) * x) (IZR (extent f) * y) bounds [ls])
              as [ps Hps].
            simpl in Hps. rewrite Hps. simpl. eexists; reflexivity.
          * destruct (cr_loop_returns ls _ cr_start_inv) as (s' & Hs' & _).
            rewrite Hs'. simpl.
            destruct (project_polygons_returns (IZR (extent f) * Rpower 2 z)
                        (IZR (extent f) * x) (IZR (extent f) * y) bounds
                        (cr_finish s')) as [ps Hps].
            rewrite Hps. simpl. eexists; reflexivity. }
    destruct Hp as [cs Hcs]. rewrite Hcs. simpl. eexists; reflexivity.
  - intros e Hl. unfold toGeoJSON. rewrite Hl. reflexivity.
Qed.

(** X11.  In the default projection [toGeoJSON] emits, for every decoded
    point and in the nesting of the decoded geometry, the pair of
    [lngFromMercatorX] and [latFromMercatorY] at the global position of the
    point divided by [extent * 2^z]: the first point of each ring for a
    point feature, the lines for a line feature, the classified rings for
    a polygon feature. *)
Theorem default_projection_emits_inverses (n : nat) (f : VectorTileFeature)
    (x y z : R) (ls : list (list Point)) :
  loadGeometry n f = Some (Return ls) ->
  (type f = 1%Z ->
   toGeoJSON n f x y z None =
   Some (Return
     (mkGeoJSON
        (assemble (Some "Point"%string)
           (map (fun l => lngLatOf (extent f) x y z (hd origin l)) ls))
        (properties f) (id f))))
  /\
  (type f = 2%Z ->
   toGeoJSON n f x y z None =
   Some (Return
     (mkGeoJSON
        (assemble (Some "LineString"%string)
           (map (fun l => Array (map (lngLatOf (extent f) x y z) l)) ls))
        (properties f) (id f))))
  /\
  (type f = 3%Z ->
   forall polys,
     classifyRings ls = Return polys ->
     toGeoJSON n f x y z None =
     Some (Return
       (mkGeoJSON
          (assemble (Some "Polygon"%string)
             (map (fun poly =>
                     Array (map (fun l =>
                                   Array (map (lngLatOf (extent f) x y z) l))
                                poly))
                  polys))
          (properties f) (id f)))).
Proof.
  intros Hl. split; [|split].
  - intros Ht. unfold toGeoJSON. rewrite Hl. cbn [bind].
    unfold projectCoords. rewrite Ht.
    change (1 =? 1)%Z with true. cbv iota.
    rewrite (heads_of_nonempty ls (loadGeometry_rings_nonempty n f ls Hl)).
    rewrite project_default. cbn [bind]. rewrite map_map. reflexivity.
  - intros Ht. unfold toGeoJSON. rewrite Hl. cbn [bind].
    unfold projectCoords. rewrite Ht.
    change (2 =? 1)%Z with false. change (2 =? 2)%Z with true. cbv iota.
    rewrite project_lines_default. cbn [bind]. rewrite map_map.
    reflexivity.
  - intros Ht polys Hc. unfold toGeoJSON. rewrite Hl. cbn [bind].
    unfold projectCoords. rewrite Ht.
    change (3 =? 1)%Z with false. change (3 =? 2)%Z with false.
    change (3 =? 3)%Z with true. cbv iota. rewrite Hc. cbn [bind].
    rewrite (mapM_ext _ _ _
               (fun poly =>
                  Return (Array (map (fun l =>
                                        Array (map (lngLatOf (extent f) x y z)
                                                   l)) poly)))).
    + rewrite mapM_returns. reflexivity.
    + intros poly. rewrite project_lines_default. cbn [bind].
      rewrite map_map. reflexivity.
Qed.

(** X12.  With bounds supplied, what [toGeoJSON] emits depends neither on
    the tile address [(x, y, z)] nor on the bounds: every point is left as
    decoded. *)
Theorem bounds_make_no_difference (n : nat) (f : VectorTileFeature)
    (x y z x' y' z' : R) (b b' : LngLatBounds) :
  toGeoJSON n f x y z (Some b) = toGeoJSON n f x' y' z' (Some b').
Proof.
  unfold toGeoJSON.
  destruct (loadGeometry n f) as [[ls|e]|]; [|reflexivity|reflexivity].
  reflexivity.
Qed.

Lemma cr_loop_all_degenerate (rings : list (list Point)) :
  (forall r, In r rings -> signedArea r = 0%Z) ->
  forall s, cr_loop rings s = Return s.
Proof.
  induction rings as [|r rings IH]; intros Hall s; simpl.
  - reflexivity.
  - unfold cr_body. rewrite (Hall r (or_introl eq_refl)). simpl.
    apply IH. intros r' Hin. apply Hall. right. exact Hin.
Qed.

(** X13.  A polygon feature that decodes to two rings or more, all of
    signed area zero, is emitted as a [MultiPolygon] with no coordinates at
    all: every ring is passed over and no polygon is opened. *)
Theorem degenerate_polygons_vanish (n : nat) (f : VectorTileFeature)
    (x y z : R) (bounds : option LngLatBounds) (rings : list (list Point)) :
  type f = 3%Z ->
  loadGeometry n f = Some (Return rings) ->
  (2 <= List.length rings)%nat ->
  (forall r, In r rings -> signedArea r = 0%Z) ->
  toGeoJSON n f x y z bounds =
  Some (Return (mkGeoJSON (mkGeometry (Some "MultiPolygon"%string) (Array []))
                          (properties f) (id f))).
Proof.
  intros Ht Hl Hlen Hall. unfold toGeoJSON. rewrite Hl, Ht. simpl.
  unfold projectCoords. simpl. unfold classifyRings.
  replace (List.length rings <=? 1)%nat with false
    by (symmetry; apply Nat.leb_gt; lia).
  rewrite (cr_loop_all_degenerate rings Hall). reflexivity.
Qed.

End EmissionFacts.

(* ================================================================== *)
(** * The projection, forwards and backwards                           *)
(* ================================================================== *)

Section ProjectionFacts.

Import VectorTileFeature Derived Mercator.
Local Open Scope R_scope.



Lemma y_of_lat_of_y (y : R) :
  mercatorYfromLat (latFromMercatorY y None) None = y.
Proof.
  pose proof PI_RGT_0 as Hpi.
  unfold mercatorYfromLat, latFromMercatorY.
  set (t := (180 - y * 360) * PI / 180).
  replace (PI / 4 + (360 / PI * atan (exp t) - 90) * PI / 360)
    with (atan (exp t)) by (field; lra).
  rewrite tan_atan, ln_exp. unfold t. field. lra.
Qed.

(** X14.  Projecting after unprojecting gives the projected coordinate
    back, for every [x] and [y] in the default projection, and in the
    bounds-relative one when the rectangle has a width and a height. *)
Theorem unprojecting_then_projecting :
  (forall x y,
     mercatorXfromLng (lngFromMercatorX x None) None = x /\
     mercatorYfromLat (latFromMercatorY y None) None = y)
  /\
  (forall b x y,
     getWest b <> getEast b -> getSouth b <> getNorth b ->
     mercatorXfromLng (lngFromMercatorX x (Some b)) (Some b) = x /\
     mercatorYfromLat (latFromMercatorY y (Some b)) (Some b) = y).
Proof.
  split.
  - intros x y. split; [|apply y_of_lat_of_y].
    unfold mercatorXfromLng, lngFromMercatorX. field.
  - intros b x y Hwe Hsn.
    unfold mercatorXfromLng, lngFromMercatorX, mercatorYfromLat,
      latFromMercatorY, convert.
    split; field; lra.
Qed.


Lemma y_of_lat_decreasing (lat1 lat2 : R) :
  -90 < lat1 -> lat1 < lat2 -> lat2 < 90 ->
  mercatorYfromLat lat2 None < mercatorYfromLat lat1 None.
Proof.
  intros H1 H12 H2. pose proof PI_RGT_0 as Hpi.
  unfold mercatorYfromLat.
  destruct (quarter_turn_range lat1 ltac:(lra)) as [Ha1 Hb1].
  destruct (quarter_turn_range lat2 ltac:(lra)) as [Ha2 Hb2].
  set (u1 := PI / 4 + lat1 * PI / 360) in *.
  set (u2 := PI / 4 + lat2 * PI / 360) in *.
  assert (Hu : u1 < u2) by (unfold u1, u2; nra).
  assert (Ht : tan u1 < tan u2) by (apply tan_increasing; lra).
  assert (Hl : ln (tan u1) < ln (tan u2)).
  { apply ln_increasing; [apply tan_gt_0; lra | exact Ht]. }
  assert (Hk : 0 < 180 / PI) by (apply Rdiv_lt_0_compat; lra).
  assert (Hm : 180 / PI * ln (tan u1) < 180 / PI * ln (tan u2))
    by (apply Rmult_lt_compat_l; assumption).
  lra.
Qed.

Lemma lat_of_y_decreasing (y1 y2 : R) :
  y1 < y2 -> latFromMercatorY y2 None < latFromMercatorY y1 None.
Proof.
  intros Hy. pose proof PI_RGT_0 as Hpi. unfold latFromMercatorY.
  assert (Ht : (180 - y2 * 360) * PI / 180 < (180 - y1 * 360) * PI / 180)
    by nra.
  assert (Ha : atan (exp ((180 - y2 * 360) * PI / 180)) <
               atan (exp ((180 - y1 * 360) * PI / 180))).
  { apply atan_increasing. apply exp_increasing. exact Ht. }
  assert (Hk : 0 < 360 / PI) by (apply Rdiv_lt_0_compat; lra).
  assert (Hm : 360 / PI * atan (exp ((180 - y2 * 360) * PI / 180)) <
               360 / PI * atan (exp ((180 - y1 * 360) * PI / 180)))
    by (apply Rmult_lt_compat_l; assumption).
  lra.
Qed.

(** X16.  North is up and east is right: in the default projection the
    longitude grows with the projected [x], the latitude falls as the
    projected [y] grows, and the projected [y] falls as the latitude grows
    from -90 to 90 degrees. *)
Theorem projection_is_monotone :
  (forall x1 x2,
     x1 < x2 -> lngFromMercatorX x1 None < lngFromMercatorX x2 None)
  /\
  (forall y1 y2,
     y1 < y2 -> latFromMercatorY y2 None < latFromMercatorY y1 None)
  /\
  (forall lat1 lat2,
     -90 < lat1 -> lat1 < lat2 -> lat2 < 90 ->
     mercatorYfromLat lat2 None < mercatorYfromLat lat1 None).
Proof.
  split; [|split].
  - intros x1 x2 H. unfold lngFromMercatorX. lra.
  - exact lat_of_y_decreasing.
  - exact y_of_lat_decreasing.
Qed.

Lemma cos_of_latitude_positive (lat : R) :
  -90 < lat < 90 -> 0 < cos (lat * PI / 180).
Proof.
  intros [Hlo Hhi]. pose proof PI_RGT_0 as Hpi. apply cos_gt_0; nra.
Qed.

(** X17.  The scale factor is 1 at the equator, at least 1 at every
    latitude between the poles, the same at a latitude and at its opposite,
    and it grows with the latitude from the equator to the pole. *)
Theorem mercatorScale_grows_from_equator :
  mercatorScale 0 = 1
  /\ (forall lat, -90 < lat < 90 -> 1 <= mercatorScale lat)
  /\ (forall lat, mercatorScale (- lat) = mercatorScale lat)
  /\ (forall a b,
        0 <= a -> a < b -> b < 90 -> mercatorScale a < mercatorScale b).
Proof.
  pose proof PI_RGT_0 as Hpi. unfold mercatorScale.
  split; [|split; [|split]].
  - replace (0 * PI / 180) with 0 by field. rewrite cos_0. field.
  - intros lat Hlat.
    pose proof (cos_of_latitude_positive lat Hlat) as Hc.
    destruct (COS_bound (lat * PI / 180)) as [_ Hle].
    unfold Rdiv. rewrite Rmult_1_l. rewrite <- Rinv_1 at 1.
    apply Rinv_le_contravar; assumption.
  - intros lat.
    replace (- lat * PI / 180) with (- (lat * PI / 180)) by field.
    rewrite cos_neg. reflexivity.
  - intros a b Ha Hab Hb.
    pose proof (cos_of_latitude_positive a ltac:(lra)) as Hca.
    pose proof (cos_of_latitude_positive b ltac:(lra)) as Hcb.
    assert (Hdec : cos (b * PI / 180) < cos (a * PI / 180)).
    { apply cos_decreasing_1; nra. }
    unfold Rdiv. rewrite !Rmult_1_l.
    apply Rinv_lt_contravar; [|exact Hdec].
    apply Rmult_lt_0_compat; assumption.
Qed.

Lemma tan_of_complement (u : R) :
  0 < u < PI / 2 -> tan (PI / 2 - u) = / tan u.
Proof.
  intros [Hlo Hhi]. unfold tan. rewrite sin_shift, cos_shift.
  assert (Hs : 0 < sin u) by (apply sin_gt_0; lra).
  assert (Hc : 0 < cos u) by (apply cos_gt_0; lra).
  field. split; lra.
Qed.

(** X18.  The projection is symmetric about the equator: opposite latitudes
    between the poles project to [y] and [1 - y].  So the equator projects
    to 1/2, and longitude 0 and latitude 0 at altitude 0 project to the
    coordinate (1/2, 1/2, 0), which unprojects to longitude 0 and
    latitude 0. *)
Theorem projection_is_symmetric :
  (forall lat,
     -90 < lat < 90 ->
     mercatorYfromLat (- lat) None = 1 - mercatorYfromLat lat None)
  /\ mercatorYfromLat 0 None = 1 / 2
  /\ fromLngLat 0 0 0 None = mkMC (1 / 2) (1 / 2) 0
  /\ toLngLat (mkMC (1 / 2) (1 / 2) 0) None = (0, 0).
Proof.
  pose proof PI_RGT_0 as Hpi.
  assert (Hsym : forall lat,
            -90 < lat < 90 ->
            mercatorYfromLat (- lat) None = 1 - mercatorYfromLat lat None).
  { intros lat Hlat. unfold mercatorYfromLat.
    destruct (quarter_turn_range lat Hlat) as [Hlo Hhi].
    set (u := PI / 4 + lat * PI / 360) in *.
    replace (PI / 4 + - lat * PI / 360) with (PI / 2 - u)
      by (unfold u; field).
    rewrite tan_of_complement by (split; assumption).
    rewrite ln_Rinv by (apply tan_gt_0; assumption).
    field. lra. }
  assert (Hzero : mercatorYfromLat 0 None = 1 / 2).
  { pose proof (Hsym 0 ltac:(lra)) as H.
    replace (- 0) with 0 in H by ring. lra. }
  split; [exact Hsym|]. split; [exact Hzero|]. split.
  - unfold fromLngLat. rewrite Hzero. f_equal.
    + unfold mercatorXfromLng. field.
    + unfold mercatorZfromAltitude. unfold Rdiv. ring.
  - unfold toLngLat. cbn [mc_x mc_y]. f_equal.
    + unfold lngFromMercatorX. field.
    + rewrite <- Hzero. apply lat_roundtrip_default. lra.
Qed.

(** X19.  In the default projection [toAltitude] undoes the altitude of
    [fromLngLat] at every latitude between the poles. *)
Theorem altitude_round_trip_default (lng lat altitude : R) :
  -90 < lat < 90 ->
  toAltitude (fromLngLat lng lat altitude None) None = altitude.
Proof.
  intros Hlat. unfold toAltitude, fromLngLat. cbn [mc_z mc_y].
  apply altitude_roundtrip_default. exact Hlat.
Qed.

(** X20.  In the default projection [meterInMercatorCoordinateUnits] of a
    coordinate projected from a latitude between the poles is the projected
    [z] of an altitude of one meter there, and the projected [z] of any
    altitude is the altitude times it. *)
Theorem meter_is_unit_altitude (lng lat altitude : R) :
  -90 < lat < 90 ->
  meterInMercatorCoordinateUnits (fromLngLat lng lat altitude None) None =
    mercatorZfromAltitude 1 lat None
  /\
  mc_z (fromLngLat lng lat altitude None) =
    altitude *
    meterInMercatorCoordinateUnits (fromLngLat lng lat altitude None) None.
Proof.
  intros Hlat. pose proof PI_RGT_0 as Hpi.
  pose proof (cos_of_latitude_positive lat Hlat) as Hc.
  unfold meterInMercatorCoordinateUnits, fromLngLat. cbn [mc_z mc_y].
  rewrite lat_roundtrip_default by exact Hlat.
  unfold mercatorZfromAltitude, mercatorScale, circumferenceAtLatitude,
    earthCircumfrence, earthRadius.
  split; field; repeat split; lra.
Qed.

End ProjectionFacts.

(* ================================================================== *)
(** * Termination, and tiles side by side                              *)
(* ================================================================== *)

Section TileFacts.

Import Pbf VectorTileFeature Derived Mercator.

(** X21.  The decoders never loop for ever: for every feature there is a
    number of iterations with which, and beyond which, [loadGeometry],
    [bbox] and [toGeoJSON] give a result, be it a value or an error.  Each
    iteration reads a byte at least or uses up one repeat of the current
    command. *)
Theorem decoders_terminate (f : VectorTileFeature) :
  exists n,
    forall k,
      (exists r, loadGeometry (n + k) f = Some r) /\
      (exists r, bbox (n + k) f = Some r) /\
      (forall x y z bounds,
         exists r, toGeoJSON (n + k) f x y z bounds = Some r).
Proof.
  destruct (loadGeometry_terminates f) as (n1 & r1 & H1).
  destruct (bbox_terminates f) as (n2 & r2 & H2).
  exists (Nat.max n1 n2). intros k.
  assert (Hl : loadGeometry (Nat.max n1 n2 + k) f = Some r1)
    by (apply loadGeometry_more_fuel with n1; [exact H1 | lia]).
  assert (Hb : bbox (Nat.max n1 n2 + k) f = Some r2)
    by (apply bbox_more_fuel with n2; [exact H2 | lia]).
  split; [eauto|]. split; [eauto|].
  intros x y z bounds. unfold toGeoJSON. rewrite Hl. eauto.
Qed.

Local Open Scope R_scope.

(** X22.  Tiles line up.  In the default projection a point on the right
    edge of a tile is emitted as the point on the left edge of the tile to
    its right, a point on the bottom edge as the point on the top edge of
    the tile below, and a point is emitted alike from a tile and, with its
    coordinates doubled, from the tile at the next zoom that starts at the
    same corner. *)
Theorem tiles_line_up (extent : Z) (x y z : R) (p : Point) :
  lngLatOf extent x y z (mkPoint (px p + extent) (py p)) =
    lngLatOf extent (x + 1) y z p
  /\
  lngLatOf extent x y z (mkPoint (px p) (py p + extent)) =
    lngLatOf extent x (y + 1) z p
  /\
  (IZR extent <> 0 ->
   lngLatOf extent (2 * x) (2 * y) (z + 1)
            (mkPoint (2 * px p) (2 * py p)) =
   lngLatOf extent x y z p).
Proof.
  unfold lngLatOf. cbn [px py]. split; [|split].
  - rewrite plus_IZR. f_equal. f_equal. unfold Rdiv. ring.
  - rewrite plus_IZR. f_equal. f_equal. unfold Rdiv. ring.
  - intros He. rewrite !mult_IZR, Rpower_plus, Rpower_1 by lra.
    assert (Hp : Rpower 2 z <> 0).
    { apply Rgt_not_eq. unfold Rpower. apply exp_pos. }
    f_equal; f_equal; field; split; assumption.
Qed.

End TileFacts.

(* ================================================================== *)
(** * Further theorems at concrete inputs                              *)
(* ================================================================== *)

Section FurtherInstances.

Import Pbf VectorTileFeature Examples Derived Mercator.

(** The second ring of [two_rings] has a first point. *)
Lemma rings_are_nonempty_witness :
  loadGeometry 6 two_rings = Some (Return [first_ring; second_ring]) /\
  exists p rest, second_ring = p :: rest.
Proof.
  assert (Hr : loadGeometry 6 two_rings =
               Some (Return [first_ring; second_ring]))
    by (vm_compute; reflexivity).
  split; [exact Hr|].
  apply (rings_are_nonempty 6 two_rings _ Hr). right. left. reflexivity.
Defined.

(** The bounding box of [two_rings] is [0, 0, 7, 7]. *)
Lemma bbox_is_box_of_geometry_witness :
  loadGeometry 6 two_rings = Some (Return [first_ring; second_ring]) /\
  bbox 6 two_rings = Some (Return [Finite 0; Finite 0; Finite 7; Finite 7]).
Proof.
  assert (Hr : loadGeometry 6 two_rings =
               Some (Return [first_ring; second_ring]))
    by (vm_compute; reflexivity).
  split; [exact Hr|].
  exact (bbox_is_box_of_geometry 6 two_rings _ Hr).
Defined.

(** Both decoders fail on [bad_command] with the unknown command 3. *)
Lemma decoders_fail_together_witness :
  bbox 2 bad_command = Some (Throw (UnknownCommand 3)) /\
  loadGeometry 2 bad_command = Some (Throw (UnknownCommand 3)) /\
  (loadGeometry 2 bad_command = Some (Throw (UnknownCommand 3)) \/
   loadGeometry 2 bad_command = Some (Throw TypeError)) /\
  bbox 2 bad_command = Some (Throw (UnknownCommand 3)).
Proof.
  assert (Hb : bbox 2 bad_command = Some (Throw (UnknownCommand 3)))
    by (vm_compute; reflexivity).
  assert (Hl : loadGeometry 2 bad_command = Some (Throw (UnknownCommand 3)))
    by (vm_compute; reflexivity).
  destruct (decoders_fail_together 2 bad_command (UnknownCommand 3))
    as [H1 H2].
  split; [exact Hb|]. split; [exact Hl|]. split.
  - exact (H1 Hb).
  - apply (H2 Hl). discriminate.
Defined.

(** [two_rings] executes two [MoveTo] commands and decodes to two rings. *)
Lemma one_ring_per_moveTo_witness :
  loadGeometry 6 two_rings = Some (Return [first_ring; second_ring]) /\
  count_occ option_eq_dec_Z (lg_commands 6 two_rings) (Some 1%Z) = 2%nat.
Proof.
  assert (Hr : loadGeometry 6 two_rings =
               Some (Return [first_ring; second_ring]))
    by (vm_compute; reflexivity).
  split; [exact Hr|].
  rewrite <- (one_ring_per_moveTo 6 two_rings _ Hr). reflexivity.
Defined.

(** [square], its reverse and [square] again: a polygon with a hole, then a
    polygon without. *)
Lemma classifyRings_groups_witness :
  classifyRings [square; square_reversed; square] =
    Return [[square; square_reversed]; [square]] /\
  exists ref,
    forall poly, In poly [[square; square_reversed]; [square]] ->
      exists ext holes,
        poly = ext :: holes /\
        signedArea ext <> 0%Z /\ (signedArea ext <? 0)%Z = ref /\
        forall h, In h holes ->
          signedArea h <> 0%Z /\ (signedArea h <? 0)%Z = negb ref.
Proof.
  assert (Hc : classifyRings [square; square_reversed; square] =
               Return [[square; square_reversed]; [square]])
    by (vm_compute; reflexivity).
  split; [exact Hc|].
  apply (classifyRings_groups [square; square_reversed; square] _);
    [simpl; lia | exact Hc].
Defined.

(** [two_lines] serializes; [line_first] fails in [toGeoJSON] as it does in
    [loadGeometry]. *)
Lemma toGeoJSON_fails_with_loadGeometry_witness :
  (loadGeometry 4 two_lines =
     Some (Return [[mkPoint 0 0; mkPoint 2 0]; [mkPoint 3 3; mkPoint 3 5]]) /\
   exists g,
     toGeoJSON 4 two_lines 0 0 0 None = Some (Return (mkGeoJSON g [] None)))
  /\
  (loadGeometry 1 line_first = Some (Throw TypeError) /\
   toGeoJSON 1 line_first 0 0 0 None = Some (Throw TypeError)).
Proof.
  assert (Hr : loadGeometry 4 two_lines =
               Some (Return [[mkPoint 0 0; mkPoint 2 0];
                             [mkPoint 3 3; mkPoint 3 5]]))
    by (vm_compute; reflexivity).
  assert (Ht : loadGeometry 1 line_first = Some (Throw TypeError))
    by (vm_compute; reflexivity).
  split.
  - split; [exact Hr|].
    destruct (toGeoJSON_fails_with_loadGeometry 4 two_lines 0 0 0 None)
      as [H1 _].
    exact (H1 _ Hr).
  - split; [exact Ht|].
    destruct (toGeoJSON_fails_with_loadGeometry 1 line_first 0 0 0 None)
      as [_ H2].
    exact (H2 _ Ht).
Defined.

(** The two lines of [two_lines] in the tile (0, 0, 0). *)
Lemma default_projection_emits_inverses_witness :
  loadGeometry 4 two_lines =
    Some (Return [[mkPoint 0 0; mkPoint 2 0]; [mkPoint 3 3; mkPoint 3 5]]) /\
  toGeoJSON 4 two_lines 0 0 0 None =
  Some (Return
    (mkGeoJSON
       (mkGeometry (Some "MultiLineString"%string)
          (Array [Array [lngLatOf 4096 0 0 0 (mkPoint 0 0);
                         lngLatOf 4096 0 0 0 (mkPoint 2 0)];
                  Array [lngLatOf 4096 0 0 0 (mkPoint 3 3);
                         lngLatOf 4096 0 0 0 (mkPoint 3 5)]]))
       [] None)).
Proof.
  assert (Hr : loadGeometry 4 two_lines =
               Some (Return [[mkPoint 0 0; mkPoint 2 0];
                             [mkPoint 3 3; mkPoint 3 5]]))
    by (vm_compute; reflexivity).
  split; [exact Hr|].
  destruct (default_projection_emits_inverses 4 two_lines 0 0 0 _ Hr)
    as (_ & H2 & _).
  exact (H2 eq_refl).
Defined.

(** [two_dots] is emitted as a [MultiPolygon] with no coordinates. *)
Lemma degenerate_polygons_vanish_witness :
  loadGeometry 4 two_dots =
    Some (Return [[mkPoint 1 1]; [mkPoint 2 2]]) /\
  toGeoJSON 4 two_dots 0 0 0 None =
  Some (Return (mkGeoJSON (mkGeometry (Some "MultiPolygon"%string) (Array []))
                          [] None)).
Proof.
  assert (Hr : loadGeometry 4 two_dots =
               Some (Return [[mkPoint 1 1]; [mkPoint 2 2]]))
    by (vm_compute; reflexivity).
  split; [exact Hr|].
  apply (degenerate_polygons_vanish 4 two_dots 0 0 0 None _ eq_refl Hr).
  - simpl. lia.
  - intros r [<-|[<-|[]]]; reflexivity.
Defined.

Local Open Scope R_scope.

(** A quarter of the way across and down, by default and in [unit_box]. *)
Lemma unprojecting_then_projecting_witness :
  (mercatorXfromLng (lngFromMercatorX (1 / 4) None) None = 1 / 4 /\
   mercatorYfromLat (latFromMercatorY (1 / 4) None) None = 1 / 4)
  /\
  (mercatorXfromLng (lngFromMercatorX (1 / 4) (Some unit_box))
                    (Some unit_box) = 1 / 4 /\
   mercatorYfromLat (latFromMercatorY (1 / 4) (Some unit_box))
                    (Some unit_box) = 1 / 4).
Proof.
  destruct unprojecting_then_projecting as [H1 H2]. split.
  - apply H1.
  - apply H2; simpl; lra.
Defined.


Lemma projection_is_monotone_witness :
  lngFromMercatorX 0 None < lngFromMercatorX 1 None /\
  latFromMercatorY 1 None < latFromMercatorY 0 None /\
  mercatorYfromLat 45 None < mercatorYfromLat 0 None.
Proof.
  destruct projection_is_monotone as (H1 & H2 & H3).
  split; [|split].
  - apply H1. lra.
  - apply H2. lra.
  - apply H3; lra.
Defined.

Lemma mercatorScale_grows_from_equator_witness :
  1 <= mercatorScale 45 /\ mercatorScale 0 < mercatorScale 45.
Proof.
  destruct mercatorScale_grows_from_equator as (_ & H2 & _ & H4).
  split.
  - apply H2. lra.
  - apply H4; lra.
Defined.

Lemma projection_is_symmetric_witness :
  mercatorYfromLat (- 45) None = 1 - mercatorYfromLat 45 None.
Proof.
  destruct projection_is_symmetric as (H1 & _).
  apply H1. lra.
Defined.

Lemma altitude_round_trip_default_witness :
  toAltitude (fromLngLat 10 45 100 None) None = 100.
Proof.
  apply altitude_round_trip_default. lra.
Defined.

Lemma meter_is_unit_altitude_witness :
  meterInMercatorCoordinateUnits (fromLngLat 10 45 100 None) None =
    mercatorZfromAltitude 1 45 None
  /\
  mc_z (fromLngLat 10 45 100 None) =
    100 * meterInMercatorCoordinateUnits (fromLngLat 10 45 100 None) None.
Proof.
  apply meter_is_unit_altitude. lra.
Defined.

(** The point (1,1) of the tile (0, 0, 0) and the point (2,2) of the tile
    (0, 0, 1). *)
Lemma tiles_line_up_witness :
  lngLatOf 4096 (2 * 0) (2 * 0) (0 + 1) (mkPoint (2 * 1) (2 * 1)) =
  lngLatOf 4096 0 0 0 (mkPoint 1 1).
Proof.
  destruct (tiles_line_up 4096 0 0 0 (mkPoint 1 1)) as (_ & _ & H3).
  apply H3. lra.
Defined.

End FurtherInstances.
